(** * Attendance dashboard (app.js): parser, aggregation and today counts

    A shallow embedding of the pure core of [app.js]: [parseCSV],
    [buildStudentsMap] and [computeTodayCounts], with the properties of
    the attendance engine stated and proved over it.

    Conventions of the embedding.
    - A JavaScript string is the list of its UTF-16 code units, each a
      number in [N] (values from 65536 on never occur in a real string and
      are treated as ordinary non-blank characters).
    - A JavaScript object used as a dictionary is a [gmap] keyed by such
      strings.  Properties found through [Object.prototype] are modelled
      where the code reads them ([map[roll]]).
    - Counters are JavaScript numbers holding integers; they are modelled
      in [Z], which is exact below [2^53], more rows and columns than a
      sheet held in memory can have.  The quotient
      [present / classesHeld] is an IEEE 754 binary64 division and is
      modelled with [SpecFloat].
    - A thrown TypeError is the result [None]. *)

From Stdlib Require Import ZArith NArith List Bool Lia String Ascii.
From Stdlib Require Import Floats.SpecFloat.
From stdpp Require Import base option list gmap fin_maps.

Local Open Scope Z_scope.

(** ** JavaScript strings *)

Module JsString.

Abbreviation jsstring := (list N).

(** Code units of an ASCII literal. *)
Definition js (s : string) : jsstring :=
  List.map N_of_ascii (list_ascii_of_string s).

Definition QUOTE : N := 34%N.
Definition COMMA : N := 44%N.
Definition LF : N := 10%N.
Definition CR : N := 13%N.

(** The characters removed by [String.prototype.trim]: ECMAScript
    WhiteSpace and LineTerminator. *)
Definition is_space (c : N) : bool :=
  ((9 <=? c) && (c <=? 13) || (c =? 32) || (c =? 160) || (c =? 5760)
   || (8192 <=? c) && (c <=? 8202) || (c =? 8232) || (c =? 8233)
   || (c =? 8239) || (c =? 8287) || (c =? 12288) || (c =? 65279))%N.

Fixpoint trimStart (s : jsstring) : jsstring :=
  match s with
  | [] => []
  | c :: r => if is_space c then trimStart r else s
  end.

Definition trimEnd (s : jsstring) : jsstring :=
  reverse (trimStart (reverse s)).

Definition trim (s : jsstring) : jsstring := trimEnd (trimStart s).

(** [s.replace(/\r/g, "")] *)
Definition remove_cr (s : jsstring) : jsstring :=
  List.filter (fun c => negb (c =? CR)%N) s.

(** [s.split(sep)] for a one-character separator; never empty. *)
Fixpoint split (sep : N) (s : jsstring) : list jsstring :=
  match s with
  | [] => [[]]
  | c :: r =>
      if (c =? sep)%N then [] :: split sep r
      else match split sep r with
           | [] => [[c]]
           | h :: t => (c :: h) :: t
           end
  end.

(** [fields.join(sep)] *)
Fixpoint join (sep : N) (fields : list jsstring) : jsstring :=
  match fields with
  | [] => []
  | [f] => f
  | f :: rest => f ++ sep :: join sep rest
  end.

(** [toLowerCase] on the ASCII letters; every other code unit is kept.
    The code only compares the result with ["p"], and no character
    other than [P] and [p] has [p] as its lower case. *)
Definition lower_char (c : N) : N :=
  if ((65 <=? c) && (c <=? 90))%N then (c + 32)%N else c.

Definition toLowerCase (s : jsstring) : jsstring := List.map lower_char s.

Definition jsstring_eqb (a b : jsstring) : bool := bool_decide (a = b).

End JsString.

Import JsString.

(** ** parseCSV *)

Module Csv.

(** The inner [for (j ...)] loop over the characters of one line, with
    its three variables [row], [cur] and [inQuotes].  An escaped quote
    consumes two characters ([j++; continue]). *)
Fixpoint parse_chars (l : jsstring) (inQuotes : bool) (cur : jsstring)
         (row : list jsstring) {struct l} : list jsstring :=
  match l with
  | [] => row ++ [cur]
  | ch :: rest =>
      if (ch =? QUOTE)%N then
        match rest with
        | ch2 :: rest2 =>
            if inQuotes && (ch2 =? QUOTE)%N
            then parse_chars rest2 inQuotes (cur ++ [QUOTE]) row
            else parse_chars rest (negb inQuotes) cur row
        | [] => parse_chars rest (negb inQuotes) cur row
        end
      else if (ch =? COMMA)%N && negb inQuotes
      then parse_chars rest inQuotes [] (row ++ [cur])
      else parse_chars rest inQuotes (cur ++ [ch]) row
  end.

(** One iteration of the outer loop: the row pushed for [lines[i]]. *)
Definition parse_line (raw : jsstring) : list jsstring :=
  let line := trim raw in
  match line with
  | [] => []
  | _ => parse_chars line false [] []
  end.

Definition parseCSV (text : jsstring) : list (list jsstring) :=
  List.map parse_line (split LF (remove_cr text)).

End Csv.

Import Csv.

(** ** Numbers *)

Module JsNumber.

(** binary64, the format of every JavaScript number. *)
Definition prec : Z := 53.
Definition emax : Z := 1024.

(** The number holding the integer [z] (exact below [2^53]). *)
Definition of_Z (z : Z) : spec_float := binary_normalize prec emax z 0 false.

Definition div (x y : spec_float) : spec_float := SFdiv prec emax x y.

(** [x >= y]; false when either side is NaN. *)
Definition geb (x y : spec_float) : bool :=
  match SFcompare x y with
  | Some (Gt | Eq) => true
  | _ => false
  end.

Definition zero : spec_float := S754_zero false.

(** The literal [0.75], that is [3 * 2^51 * 2^-53]. *)
Definition threshold : spec_float := S754_finite false 6755399441055744 (-53).

End JsNumber.

(** ** The student model *)

Module Subject.
(** The record stored in [student.subjects[subject]]. *)
Record t := mk {
  classesHeld : Z;
  present : Z;
  absent : Z;
  presentByDate : list Z
}.
End Subject.

Module Totals.
(** [student.totals]; [percent] and [status] are undefined until the
    closing loop of [buildStudentsMap] assigns them. *)
Record t := mk {
  classesHeld : Z;
  present : Z;
  absent : Z;
  percent : option spec_float;
  status : option jsstring
}.
End Totals.

Module Student.
Record t := mk {
  name : jsstring;
  roll : jsstring;
  subjects : gmap jsstring Subject.t;
  totals : Totals.t
}.
End Student.

Module Sheet.
(** One element of the array returned by [fetchAllSheets]. *)
Record t := mk {
  subject : jsstring;
  rows : list (list jsstring)
}.
End Sheet.

Module Built.
(** The result object [{ map, subjectLastColIndex }]. *)
Record t := mk {
  map : gmap jsstring Student.t;
  subjectLastColIndex : gmap jsstring Z
}.
End Built.

Definition GOOD : jsstring := js "Good".
Definition NEEDS_IMPROVEMENT : jsstring := js "Needs Improvement".
Definition UNKNOWN : jsstring := js "Unknown".

(** ** buildStudentsMap *)

Module Build.

Definition nameIdx : nat := 1.
Definition rollIdx : nat := 2.
Definition dateStart : nat := 3.

(** The property names every object literal inherits from
    [Object.prototype].  For such a [roll], [map[roll]] is not undefined
    although [map] has no student of that name. *)
Definition Object_prototype_keys : list jsstring :=
  [ js "constructor"; js "__defineGetter__"; js "__defineSetter__";
    js "hasOwnProperty"; js "__lookupGetter__"; js "__lookupSetter__";
    js "isPrototypeOf"; js "propertyIsEnumerable"; js "toString";
    js "valueOf"; js "__proto__"; js "toLocaleString" ].

(** [(row[i] || "")] *)
Definition cell (row : list jsstring) (i : nat) : jsstring :=
  default [] (row !! i).

(** [(row[c] || "").trim().toLowerCase() === "p"] *)
Definition isPresent (row : list jsstring) (c : nat) : bool :=
  jsstring_eqb (toLowerCase (trim (cell row c))) (js "p").

(** The loop over the date columns [dateStart .. header.length - 1],
    giving [presentByDate] and [presentTotal]. *)
Definition mark_step (row : list jsstring) (acc : list Z * Z) (c : nat)
  : list Z * Z :=
  let '(presentByDate, presentTotal) := acc in
  if isPresent row c
  then (presentByDate ++ [1], presentTotal + 1)
  else (presentByDate ++ [0], presentTotal).

Definition mark_row (header row : list jsstring) : list Z * Z :=
  fold_left (mark_step row)
            (seq dateStart (length header - dateStart)) ([], 0).

(** [{ name: name || "Unknown", roll, subjects: {}, totals: {...} }] *)
Definition new_student (name roll : jsstring) : Student.t :=
  Student.mk (match name with [] => UNKNOWN | _ => name end) roll ∅
             (Totals.mk 0 0 0 None None).

Definition set_name (st : Student.t) (n : jsstring) : Student.t :=
  Student.mk n (Student.roll st) (Student.subjects st) (Student.totals st).

(** The three statements that store the subject record and add it to
    the totals. *)
Definition record_subject (st : Student.t) (subj : jsstring)
           (rec : Subject.t) : Student.t :=
  let t := Student.totals st in
  Student.mk (Student.name st) (Student.roll st)
             (<[subj := rec]> (Student.subjects st))
             (Totals.mk (Totals.classesHeld t + Subject.classesHeld rec)
                        (Totals.present t + Subject.present rec)
                        (Totals.absent t + Subject.absent rec)
                        (Totals.percent t) (Totals.status t)).

(** The student that [map[roll]] denotes after the [if]/[else if] at
    the head of the row loop, or [None] when [map[roll]] is an inherited
    property: it has no [subjects], and the assignment to
    [map[roll].subjects[...]] throws a TypeError. *)
Definition resolve (m : gmap jsstring Student.t) (name roll : jsstring)
  : option Student.t :=
  match m !! roll with
  | Some st =>
      match Student.name st, name with
      | [], _ :: _ => Some (set_name st name)
      | _, _ => Some st
      end
  | None =>
      if bool_decide (roll ∈ Object_prototype_keys) then None
      else Some (new_student name roll)
  end.

(** The body of the loop over the data rows; [None] is a thrown
    TypeError. *)
Definition process_row (subj : jsstring) (header : list jsstring)
           (classesHeld : Z) (m : gmap jsstring Student.t)
           (row : list jsstring) : option (gmap jsstring Student.t) :=
  let name := trim (cell row nameIdx) in
  let roll := trim (cell row rollIdx) in
  match roll with
  | [] => Some m
  | _ =>
      st ← resolve m name roll;
      let subjClassesHeld := classesHeld in
      let '(presentByDate, presentTotal) := mark_row header row in
      let subjAbsent := subjClassesHeld - presentTotal in
      Some (<[roll :=
               record_subject st subj
                 (Subject.mk subjClassesHeld presentTotal subjAbsent
                             presentByDate)]> m)
  end.

Fixpoint process_rows (subj : jsstring) (header : list jsstring)
         (classesHeld : Z) (m : gmap jsstring Student.t)
         (data : list (list jsstring)) : option (gmap jsstring Student.t) :=
  match data with
  | [] => Some m
  | row :: rest =>
      m' ← process_row subj header classesHeld m row;
      process_rows subj header classesHeld m' rest
  end.

(** The body of the loop over the sheets. *)
Definition process_sheet (acc : Built.t) (sheet : Sheet.t) : option Built.t :=
  match Sheet.rows sheet with
  | [] => Some acc
  | header :: data =>
      let classesHeld := Z.max 0 (Z.of_nat (length header) - Z.of_nat dateStart) in
      let idx := <[Sheet.subject sheet := Z.of_nat (length header) - 1]>
                   (Built.subjectLastColIndex acc) in
      m' ← process_rows (Sheet.subject sheet) header classesHeld (Built.map acc) data;
      Some (Built.mk m' idx)
  end.

Fixpoint process_sheets (acc : Built.t) (sheets : list Sheet.t) : option Built.t :=
  match sheets with
  | [] => Some acc
  | sheet :: rest =>
      acc' ← process_sheet acc sheet;
      process_sheets acc' rest
  end.

(** The closing loop: percent and status of one student. *)
Definition finish (st : Student.t) : Student.t :=
  let t := Student.totals st in
  let percent :=
    if 0 <? Totals.classesHeld t
    then JsNumber.div (JsNumber.of_Z (Totals.present t))
                      (JsNumber.of_Z (Totals.classesHeld t))
    else JsNumber.zero in
  let status :=
    if JsNumber.geb percent JsNumber.threshold then GOOD
    else NEEDS_IMPROVEMENT in
  Student.mk (Student.name st) (Student.roll st) (Student.subjects st)
             (Totals.mk (Totals.classesHeld t) (Totals.present t)
                        (Totals.absent t) (Some percent) (Some status)).

Definition buildStudentsMap (sheets : list Sheet.t) : option Built.t :=
  b ← process_sheets (Built.mk ∅ ∅) sheets;
  Some (Built.mk (finish <$> Built.map b) (Built.subjectLastColIndex b)).

End Build.

Import Build.

(** ** computeTodayCounts *)

Module Today.

Record Counts := mkCounts { present : Z; absent : Z; unknown : Z }.

(** The three flags of the loop over a student's subjects. *)
Record Flags := mkFlags {
  hasAnySubject : bool;
  anyPresent : bool;
  anySubjectWithDate : bool
}.

(** [for (const subj in student.subjects)], over the subject records in
    enumeration order; the [break] leaves the remaining records
    unvisited. *)
Fixpoint scan_subjects (ss : list Subject.t) (f : Flags) : Flags :=
  match ss with
  | [] => f
  | s :: rest =>
      let lastIndex := Z.of_nat (length (Subject.presentByDate s)) - 1 in
      if 0 <=? lastIndex then
        let f' := mkFlags true (anyPresent f) true in
        match Subject.presentByDate s !! Z.to_nat lastIndex with
        | Some 1 => mkFlags true true true
        | _ => scan_subjects rest f'
        end
      else scan_subjects rest f
  end.

(** The records are visited in the order of [map_to_list]; the flags do
    not depend on the order (lemma [scan_subjects_flags] holds for every
    list). *)
Definition student_flags (student : Student.t) : Flags :=
  scan_subjects (snd <$> map_to_list (Student.subjects student))
                (mkFlags false false false).

(** The counter that the body of the outer loop increments. *)
Inductive Mark := Present | Absent | Unknown.

#[global] Instance Mark_eq_dec : EqDecision Mark.
Proof. solve_decision. Defined.

Definition mark (student : Student.t) : Mark :=
  let f := student_flags student in
  if negb (anySubjectWithDate f) then Unknown
  else if anyPresent f then Present else Absent.

Definition count (c : Counts) (student : Student.t) : Counts :=
  match mark student with
  | Unknown => mkCounts (present c) (absent c) (unknown c + 1)
  | Present => mkCounts (present c + 1) (absent c) (unknown c)
  | Absent => mkCounts (present c) (absent c + 1) (unknown c)
  end.

(** [subjectLastColIndex] is a parameter the function never reads. *)
Definition computeTodayCounts (map : gmap jsstring Student.t)
           (subjectLastColIndex : gmap jsstring Z) : Counts :=
  fold_left count (snd <$> map_to_list map) (mkCounts 0 0 0).

End Today.

Import Today.

(** ** escapeHtml *)

Module Html.

Definition AMP : N := 38%N.
Definition LT : N := 60%N.
Definition GT : N := 62%N.

(** [s.replace(/c/g, by)] for a pattern of one literal character. *)
Fixpoint replace_all (c : N) (by_ : jsstring) (s : jsstring) : jsstring :=
  match s with
  | [] => []
  | d :: r => (if (d =? c)%N then by_ else [d]) ++ replace_all c by_ r
  end.

(** The three passes in the order of the source.  The callers pass
    strings, on which [String(str)] is the identity. *)
Definition escapeHtml (str : jsstring) : jsstring :=
  replace_all GT (js "&gt;")
    (replace_all LT (js "&lt;")
       (replace_all AMP (js "&amp;") str)).

End Html.

Import Html.

(** ** fetchAllSheets *)

Module Fetch.

(** The table [CSV_URLS]: subject and address of each sheet. *)
Definition CSV_URLS : list (jsstring * jsstring) :=
  [ (js "DBMS",
     js "https://docs.google.com/spreadsheets/d/1mpNm7B3lH0cwtYSuWq8hc_APwUvMtDsXUFa4Wxs79Gw/export?format=csv");
    (js "Soft Computing",
     js "https://docs.google.com/spreadsheets/d/1FpO3Unwv1r3qHUf0O6ej9VbFmOnQzxWBY2jkxFvqxMg/export?format=csv");
    (js "DAA",
     js "https://docs.google.com/spreadsheets/d/1ZCZPdJNCS_OjCB9Th8UkoKHK5lHnqY7zdwbZsWWli_Y/export?format=csv");
    (js "OOSD With C++",
     js "https://docs.google.com/spreadsheets/d/1_Ewg-7Bu1tX2YcSloaJfdsOxXoYf9_ltxhGR9o2jx3U/export?format=csv") ].

(** [fetchAllSheets], given what [fetchCSV] yields for each address: the
    text of the response, or [None] when it throws.  [Promise.all] keeps
    the order of [CSV_URLS] and rejects as soon as one fetch does. *)
Definition fetchAllSheets (fetchCSV : jsstring → option jsstring)
  : option (list Sheet.t) :=
  mapM (λ s : jsstring * jsstring,
          txt ← fetchCSV s.2;
          let rows := parseCSV txt in
          Some (Sheet.mk s.1 rows))
       CSV_URLS.

End Fetch.

Import Fetch.

(** ** The figures of loadAndRender *)

Module Summary.

(** The arguments of [renderSummary]. *)
Record t := mk {
  totalStudents : Z;
  totalClassesHeld : Z;
  avgAttendance : spec_float;
  todayCounts : Today.Counts
}.

(** [(x || 0)] on a number: 0 is the only falsy integer. *)
Definition or_zero (x : Z) : Z := if x =? 0 then 0 else x.

(** [studentsList.reduce((acc, s) => acc + (s.totals.f || 0), 0)] *)
Definition total (f : Totals.t → Z) (studentsList : list Student.t) : Z :=
  fold_left (λ acc s, acc + or_zero (f (Student.totals s))) studentsList 0.

(** The part of [loadAndRender] between [buildStudentsMap] and the
    rendering calls. *)
Definition summarize (b : Built.t) : t :=
  let studentsMap := Built.map b in
  let studentsList := snd <$> map_to_list studentsMap in
  let totalStudents := Z.of_nat (length studentsList) in
  let totalClassesHeld := total Totals.classesHeld studentsList in
  let totalPresent := total Totals.present studentsList in
  let avgAttendance :=
    if 0 <? totalClassesHeld
    then JsNumber.div (JsNumber.of_Z totalPresent)
                      (JsNumber.of_Z totalClassesHeld)
    else JsNumber.zero in
  let todayCounts :=
    computeTodayCounts studentsMap (Built.subjectLastColIndex b) in
  mk totalStudents totalClassesHeld avgAttendance todayCounts.


End Summary.

(** * Reference definitions for the statements *)

(** A field written the way a CSV writer quotes it: every double quote
    doubled, the whole between double quotes. *)
Fixpoint escape_quotes (f : jsstring) : jsstring :=
  match f with
  | [] => []
  | c :: r => if (c =? QUOTE)%N then QUOTE :: QUOTE :: escape_quotes r
              else c :: escape_quotes r
  end.

Definition csv_quote (f : jsstring) : jsstring :=
  QUOTE :: escape_quotes f ++ [QUOTE].

(** [cur] put in front of the first of the fields [ss]. *)
Definition glue (cur : jsstring) (ss : list jsstring) : list jsstring :=
  match ss with
  | [] => [cur]
  | h :: t => (cur ++ h) :: t
  end.

(** The statement that the parser keeps every field verbatim: a line
    without quotes yields the character sequences between its commas,
    trimming being used for the blank-line test alone. *)
Definition fields_verbatim_as_stated : Prop :=
  ∀ line : jsstring,
    CR ∉ line → LF ∉ line → QUOTE ∉ line →
    parseCSV line = [match trim line with
                     | [] => []
                     | _ => split COMMA line
                     end].

(** The round trip stated for every non-empty sequence of fields free of
    commas and double quotes. *)
Definition roundtrip_as_stated : Prop :=
  ∀ fields : list jsstring,
    fields ≠ [] →
    Forall (λ f, (COMMA ∉ f) ∧ (QUOTE ∉ f)) fields →
    parseCSV (join COMMA fields) = [fields].

(** The three cases of the today detector, in the words of its
    description: some subject's last session is marked 1; none is, but
    some subject has a session; no subject has any session. *)
Definition present_today (st : Student.t) : Prop :=
  ∃ subj s, Student.subjects st !! subj = Some s
            ∧ Subject.presentByDate s ≠ []
            ∧ last (Subject.presentByDate s) = Some 1.

Definition has_dated_subject (st : Student.t) : Prop :=
  ∃ subj s, Student.subjects st !! subj = Some s
            ∧ Subject.presentByDate s ≠ [].

Definition absent_today (st : Student.t) : Prop :=
  ¬ present_today st ∧ has_dated_subject st.

Definition unknown_today (st : Student.t) : Prop :=
  ∀ subj s, Student.subjects st !! subj = Some s →
            Subject.presentByDate s = [].

(** The two tests on a subject record, as booleans. *)
Definition dated (s : Subject.t) : bool :=
  bool_decide (Subject.presentByDate s ≠ []).

Definition last_one (s : Subject.t) : bool :=
  bool_decide (last (Subject.presentByDate s) = Some 1).

(** The number of students in a list that the detector marks [k]. *)
Definition tally (k : Mark) (l : list Student.t) : Z :=
  Z.of_nat (length (filter (λ st, mark st = k) l)).

(** The number of students of [m] that the detector marks [k]. *)
Definition marked (k : Mark) (m : gmap jsstring Student.t) : Z :=
  Z.of_nat (size (filter (λ kv, mark kv.2 = k) m)).

(** The invariants of the student model. *)
Definition subject_ok (s : Subject.t) : Prop :=
  Subject.present s + Subject.absent s = Subject.classesHeld s
  ∧ Z.of_nat (length (Subject.presentByDate s)) = Subject.classesHeld s.

Definition student_ok (st : Student.t) : Prop :=
  Totals.present (Student.totals st) + Totals.absent (Student.totals st)
  = Totals.classesHeld (Student.totals st)
  ∧ ∀ subj s, Student.subjects st !! subj = Some s → subject_ok s.

(** The sum of a field over the records of a student's [subjects]. *)
Definition subjects_sum (f : Subject.t → Z) (st : Student.t) : Z :=
  foldr Z.add 0 (f ∘ snd <$> map_to_list (Student.subjects st)).

(** Sample sheets.  Column 0 is unused, column 1 the name, column 2 the
    roll, the session columns follow. *)
Definition header_of (dates : list jsstring) : list jsstring :=
  [[]; js "Name"; js "Roll"] ++ dates.

(** Three sessions; the row of roll 7 has a cell for the first only. *)
Definition short_row_sheets : list Sheet.t :=
  [Sheet.mk (js "DBMS")
     [header_of [js "d1"; js "d2"; js "d3"];
      [[]; js "Asha"; js "7"; js "P"]]].

(** One session; roll 7 appears in two rows of the same sheet. *)
Definition duplicate_roll_sheets : list Sheet.t :=
  [Sheet.mk (js "DBMS")
     [header_of [js "d1"];
      [[]; js "Asha"; js "7"; js "P"];
      [[]; js "Asha"; js "7"; js "P"]]].

(** Roll 7 first appears without a name, then with one. *)
Definition late_name_sheets : list Sheet.t :=
  [Sheet.mk (js "DBMS")
     [header_of [js "d1"];
      [[]; []; js "7"; js "P"];
      [[]; js "Asha"; js "7"; js "P"]]].

(** Four sessions, three of them attended. *)
Definition three_of_four_sheets : list Sheet.t :=
  [Sheet.mk (js "DAA")
     [header_of [js "d1"; js "d2"; js "d3"; js "d4"];
      [[]; js "Asha"; js "7"; js "P"; js "p"; js " P "; js "A"]]].

(** The number of occurrences of a character in a string. *)
Fixpoint occurrences (c : N) (s : jsstring) : nat :=
  match s with
  | [] => 0%nat
  | d :: r => ((if (d =? c)%N then 1 else 0) + occurrences c r)%nat
  end.

(** [lines.join(sep)] for a separator of any length. *)
Fixpoint join_with (sep : jsstring) (lines : list jsstring) : jsstring :=
  match lines with
  | [] => []
  | [l] => l
  | l :: rest => l ++ sep ++ join_with sep rest
  end.

(** What [escapeHtml] writes for one character. *)
Definition escape_char (c : N) : jsstring :=
  if (c =? AMP)%N then js "&amp;"
  else if (c =? LT)%N then js "&lt;"
  else if (c =? GT)%N then js "&gt;"
  else [c].

(** The reader of the three entities that [escapeHtml] writes; every
    other character is copied. *)
Fixpoint unescapeHtml (s : jsstring) : jsstring :=
  match s with
  | [] => []
  | c :: r =>
      match r with
      | c1 :: c2 :: c3 :: r3 =>
          if ((c =? AMP) && (c1 =? 108) && (c2 =? 116) && (c3 =? 59))%N
          then LT :: unescapeHtml r3
          else if ((c =? AMP) && (c1 =? 103) && (c2 =? 116) && (c3 =? 59))%N
          then GT :: unescapeHtml r3
          else match r3 with
               | c4 :: r4 =>
                   if ((c =? AMP) && (c1 =? 97) && (c2 =? 109)
                       && (c3 =? 112) && (c4 =? 59))%N
                   then AMP :: unescapeHtml r4
                   else c :: unescapeHtml r
               | [] => c :: unescapeHtml r
               end
      | _ => c :: unescapeHtml r
      end
  end.

(** A data row together with the subject and the header of its sheet. *)
Record Entry := mkEntry {
  e_subject : jsstring;
  e_header : list jsstring;
  e_row : list jsstring
}.

(** The data rows of a sheet, and of all sheets in processing order. *)
Definition sheet_entries (sheet : Sheet.t) : list Entry :=
  match Sheet.rows sheet with
  | [] => []
  | header :: data => mkEntry (Sheet.subject sheet) header <$> data
  end.

Definition entries (sheets : list Sheet.t) : list Entry :=
  sheets ≫= sheet_entries.

Definition roll_of (e : Entry) : jsstring := trim (cell (e_row e) rollIdx).
Definition name_of (e : Entry) : jsstring := trim (cell (e_row e) nameIdx).

Definition classesHeld_of (header : list jsstring) : Z :=
  Z.max 0 (Z.of_nat (length header) - Z.of_nat dateStart).

(** The subject record that the row loop stores for a data row. *)
Definition record_of (e : Entry) : Subject.t :=
  let '(presentByDate, presentTotal) := mark_row (e_header e) (e_row e) in
  Subject.mk (classesHeld_of (e_header e)) presentTotal
             (classesHeld_of (e_header e) - presentTotal) presentByDate.

(** The rows of a roll. *)
Definition rows_of (r : jsstring) (es : list Entry) : list Entry :=
  filter (λ e, roll_of e = r) es.

(** The row loop applied to the data rows in sequence. *)
Definition apply_entry (m : gmap jsstring Student.t) (e : Entry)
  : option (gmap jsstring Student.t) :=
  process_row (e_subject e) (e_header e) (classesHeld_of (e_header e)) m
              (e_row e).

Fixpoint run_entries (m : gmap jsstring Student.t) (es : list Entry)
  : option (gmap jsstring Student.t) :=
  match es with
  | [] => Some m
  | e :: rest => m' ← apply_entry m e; run_entries m' rest
  end.

(** The sum of a field of the subject records of some rows. *)
Definition rows_sum (f : Subject.t → Z) (rows : list Entry) : Z :=
  foldr Z.add 0 (f ∘ record_of <$> rows).

(** The subject records of some rows, a later row replacing an earlier
    one of the same subject. *)
Definition subjects_of (rows : list Entry) : gmap jsstring Subject.t :=
  foldl (λ m e, <[e_subject e := record_of e]> m) ∅ rows.

(** The student that the rows of one roll add up to, before the closing
    loop. *)
Definition student_of (r : jsstring) (rows : list Entry) : option Student.t :=
  match rows with
  | [] => None
  | e :: _ =>
      Some (Student.mk
              (match name_of e with [] => UNKNOWN | n => n end) r
              (subjects_of rows)
              (Totals.mk (rows_sum Subject.classesHeld rows)
                         (rows_sum Subject.present rows)
                         (rows_sum Subject.absent rows) None None))
  end.

(** The marks of a row under a header: 1 for a session attended. *)
Definition marks (header row : list jsstring) : list Z :=
  (λ c, if isPresent row c then 1 else 0)
    <$> seq dateStart (length header - dateStart).

(** The sheets with every cell trimmed. *)
Definition trim_cells (sheet : Sheet.t) : Sheet.t :=
  Sheet.mk (Sheet.subject sheet)
           ((λ row : list jsstring, trim <$> row) <$> Sheet.rows sheet).

(** The sum of a figure over the students of a map. *)
Definition map_sum (f : Student.t → Z) (m : gmap jsstring Student.t) : Z :=
  foldr Z.add 0 (f ∘ snd <$> map_to_list m).

(** The data rows that carry a roll. *)
Definition valid_entries (sheets : list Sheet.t) : list Entry :=
  filter (λ e, roll_of e ≠ []) (entries sheets).

(** The last step of IEEE rounding, after the mantissa has been shifted
    and rounded: the float of a shifted mantissa and its exponent. *)
Definition finish_round (s : bool) (p : shr_record * Z) : spec_float :=
  match shr_m p.1 with
  | Z0 => S754_zero s
  | Zpos m =>
      if p.2 <=? JsNumber.emax - JsNumber.prec then S754_finite s m p.2
      else S754_infinity s
  | Zneg _ => S754_nan
  end.

(** The binary64 number of a rounded mantissa between [2^52] and
    [2^53]. *)
Definition rounded (m e : Z) : spec_float :=
  if m <? 2 ^ 53 then S754_finite false (Z.to_pos m) e
  else S754_finite false (Z.to_pos (2 ^ 52)) (e + 1).

(** * Properties of the parser *)

Section StringFacts.

Lemma split_nonempty sep s : split sep s ≠ [].
Proof. destruct s as [|c r]; simpl; [done|]. by repeat case_match. Qed.

Lemma glue_nil ss : ss ≠ [] → glue [] ss = ss.
Proof. by destruct ss. Qed.

Lemma split_no_sep sep f : sep ∉ f → split sep f = [f].
Proof.
  induction f as [|c f IH]; [done|].
  intros [Hc Hf]%not_elem_of_cons. simpl.
  destruct (N.eqb_spec c sep) as [->|_]; [done|]. by rewrite IH.
Qed.

Lemma split_app_sep sep f r :
  sep ∉ f → split sep (f ++ sep :: r) = f :: split sep r.
Proof.
  induction f as [|c f IH]; simpl.
  - intros _. by rewrite N.eqb_refl.
  - intros [Hc Hf]%not_elem_of_cons.
    destruct (N.eqb_spec c sep) as [->|_]; [done|]. by rewrite IH.
Qed.

Lemma split_join sep fields :
  fields ≠ [] → Forall (λ f, sep ∉ f) fields →
  split sep (join sep fields) = fields.
Proof.
  induction fields as [|f rest IH]; [done|].
  intros _ Hall. apply Forall_cons in Hall as [Hf Hrest].
  destruct rest as [|g rest].
  - by apply split_no_sep.
  - change (join sep (f :: g :: rest)) with (f ++ sep :: join sep (g :: rest)).
    rewrite split_app_sep by done. by rewrite IH.
Qed.

Lemma remove_cr_id s : CR ∉ s → remove_cr s = s.
Proof.
  induction s as [|c s IH]; [done|].
  intros [Hc Hs]%not_elem_of_cons. unfold remove_cr in *. simpl.
  destruct (N.eqb_spec c CR) as [->|_]; [done|]. simpl. by rewrite IH.
Qed.

Lemma trimStart_id s :
  (∀ c, head s = Some c → is_space c = false) → trimStart s = s.
Proof. destruct s as [|c r]; [done|]. intros H. simpl. by rewrite (H c). Qed.

Lemma trimEnd_id s :
  (∀ c, last s = Some c → is_space c = false) → trimEnd s = s.
Proof.
  intros H. unfold trimEnd. rewrite trimStart_id; [apply reverse_involutive|].
  intros c Hc. apply H. by rewrite <- head_reverse.
Qed.

Lemma trim_id s :
  (∀ c, head s = Some c → is_space c = false) →
  (∀ c, last s = Some c → is_space c = false) → trim s = s.
Proof. intros H1 H2. unfold trim. rewrite trimStart_id by done. by apply trimEnd_id. Qed.

(** [trim] only removes characters: what remains occurs in the input. *)
Lemma trimStart_suffix s : trimStart s `suffix_of` s.
Proof.
  induction s as [|c s IH]; simpl; [done|].
  destruct (is_space c); [by apply suffix_cons_r | done].
Qed.

Lemma trim_elem_of c s : c ∈ trim s → c ∈ s.
Proof.
  unfold trim, trimEnd. rewrite elem_of_reverse. intros H.
  pose proof (elem_of_suffix _ _ _ H (trimStart_suffix _)) as H'.
  rewrite elem_of_reverse in H'.
  exact (elem_of_suffix _ _ _ H' (trimStart_suffix _)).
Qed.

End StringFacts.

Section JoinFacts.

Lemma join_cons2 sep f g rest :
  join sep (f :: g :: rest) = f ++ sep :: join sep (g :: rest).
Proof. reflexivity. Qed.

Lemma elem_of_join sep fields c :
  c ∈ join sep fields → c = sep ∨ ∃ f, f ∈ fields ∧ c ∈ f.
Proof.
  induction fields as [|f [|g rest] IH]; [by intros ?%elem_of_nil| |].
  - intros H. right. exists f. split; [left | done].
  - rewrite join_cons2, elem_of_app, elem_of_cons.
    intros [H|[H|H]]; [right; exists f; split; [left|done] | by left |].
    destruct (IH H) as [?|(h & Hh & Hc)]; [by left|].
    right. exists h. split; [by right | done].
Qed.

Lemma not_elem_of_join sep fields c :
  c ≠ sep → Forall (λ f, c ∉ f) fields → c ∉ join sep fields.
Proof.
  intros Hsep Hall [?|(f & Hf & Hc)]%elem_of_join; [done|].
  rewrite Forall_forall in Hall. by apply (Hall f).
Qed.

Lemma head_join sep fields c :
  head (join sep fields) = Some c →
  c = sep ∨ ∃ f, head fields = Some f ∧ head f = Some c.
Proof.
  destruct fields as [|f [|g rest]]; [done| |].
  - intros H. right. by exists f.
  - rewrite join_cons2. destruct f as [|d f]; simpl.
    + intros [= <-]. by left.
    + intros [= <-]. right. by eexists.
Qed.

Lemma last_join sep fields c :
  last (join sep fields) = Some c →
  c = sep ∨ ∃ f, last fields = Some f ∧ last f = Some c.
Proof.
  induction fields as [|f [|g rest] IH]; [done| |].
  - intros H. right. by exists f.
  - rewrite join_cons2, last_app_cons, last_cons.
    destruct (last (join sep (g :: rest))) as [d|] eqn:Hd.
    + intros [= <-]. destruct (IH eq_refl) as [?|(h & Hh & Hc)]; [by left|].
      right. exists h. by rewrite last_cons_cons.
    + intros [= <-]. by left.
Qed.

Lemma join_nonempty sep fields :
  fields ≠ [] → fields ≠ [[]] → join sep fields ≠ [].
Proof.
  destruct fields as [|f [|g rest]]; [done| |].
  - intros _ H. simpl. intros ->. by apply H.
  - intros _ _. rewrite join_cons2. by destruct f.
Qed.

End JoinFacts.

Section ParserFacts.

(** Outside quotes and with no quote ahead, the character loop splits
    at the commas. *)
Lemma parse_chars_plain l cur row :
  QUOTE ∉ l → parse_chars l false cur row = row ++ glue cur (split COMMA l).
Proof.
  revert cur row. induction l as [|c l IH]; intros cur row.
  - intros _. simpl. by rewrite app_nil_r.
  - intros [Hc Hl]%not_elem_of_cons. simpl.
    destruct (N.eqb_spec c QUOTE) as [->|_]; [done|].
    destruct (N.eqb_spec c COMMA) as [->|_]; simpl.
    + rewrite IH by done. rewrite glue_nil by apply split_nonempty.
      by rewrite app_nil_r, <- app_assoc.
    + rewrite IH by done. pose proof (split_nonempty COMMA l).
      destruct (split COMMA l); [done|]. simpl. by rewrite <- app_assoc.
Qed.

(** Inside quotes the loop copies an escaped field up to its closing
    quote, commas included. *)
Lemma parse_chars_escaped f rest cur row :
  (∀ c, head rest = Some c → c ≠ QUOTE) →
  parse_chars (escape_quotes f ++ QUOTE :: rest) true cur row
  = parse_chars rest false (cur ++ f) row.
Proof.
  intros Hrest. revert cur. induction f as [|c f IH]; intros cur.
  - rewrite app_nil_r. simpl.
    destruct rest as [|d rest]; [done|].
    destruct (N.eqb_spec d QUOTE) as [->|_]; [|done].
    by destruct (Hrest QUOTE).
  - simpl. destruct (N.eqb_spec c QUOTE) as [->|Hc].
    + simpl. rewrite IH. by rewrite <- app_assoc.
    + simpl. destruct (N.eqb_spec c QUOTE) as [|_]; [done|].
      rewrite andb_false_r, IH. by rewrite <- app_assoc.
Qed.

Lemma parse_chars_csv_quote f rest cur row :
  (∀ c, head rest = Some c → c ≠ QUOTE) →
  parse_chars (csv_quote f ++ rest) false cur row
  = parse_chars rest false (cur ++ f) row.
Proof.
  intros Hrest. unfold csv_quote.
  rewrite <- app_comm_cons, <- app_assoc. simpl app.
  rewrite <- (parse_chars_escaped f rest cur row Hrest).
  simpl. by destruct (escape_quotes f ++ QUOTE :: rest).
Qed.

Lemma parse_chars_quoted_fields fields row :
  fields ≠ [] →
  parse_chars (join COMMA (csv_quote <$> fields)) false [] row
  = row ++ fields.
Proof.
  revert row. induction fields as [|f [|g rest] IH]; intros row; [done| |].
  - intros _. simpl join. rewrite <- (app_nil_r (csv_quote f)).
    by rewrite parse_chars_csv_quote.
  - intros _. rewrite !fmap_cons, join_cons2.
    rewrite parse_chars_csv_quote by (by intros c [= <-]).
    rewrite <- fmap_cons.
    change (parse_chars (COMMA :: ?l) false ?c ?r)
      with (parse_chars l false [] (r ++ [c])).
    rewrite IH by done. by rewrite <- app_assoc.
Qed.

Lemma parseCSV_single_line text :
  CR ∉ text → LF ∉ text → parseCSV text = [parse_line text].
Proof.
  intros Hcr Hlf. unfold parseCSV.
  by rewrite remove_cr_id, split_no_sep.
Qed.

End ParserFacts.

(** ** The parser's claims *)

(** C4, as stated, fails: the character loop runs over the trimmed line,
    so the blanks that open the first field and close the last one are
    lost.  [parseCSV(" a,b ")] is [[["a", "b"]]], not [[[" a", "b "]]]. *)
Lemma fields_verbatim_counterexample :
  parseCSV (js " a,b ") = [[js "a"; js "b"]]
  ∧ split COMMA (js " a,b ") = [js " a"; js "b "]
  ∧ ¬ fields_verbatim_as_stated.
Proof.
  split; [reflexivity|]. split; [reflexivity|].
  intros H.
  assert (Heq : parseCSV (js " a,b ") = [split COMMA (js " a,b ")])
    by (apply (H (js " a,b ")); compute_done).
  discriminate Heq.
Qed.

(** C4 (amended): for a line without carriage return, line feed or double
    quote, the row holds exactly the character sequences between the
    commas of the trimmed line (no field for a blank line).  Blanks next
    to a comma are kept; the blanks that open or close the line are not. *)
Theorem parseCSV_fields_of_trimmed_line (line : jsstring) :
  CR ∉ line → LF ∉ line → QUOTE ∉ line →
  parseCSV line = [match trim line with
                   | [] => []
                   | _ => split COMMA (trim line)
                   end].
Proof.
  intros Hcr Hlf Hq. rewrite parseCSV_single_line by done.
  unfold parse_line. f_equal.
  assert (Hqt : QUOTE ∉ trim line) by (intros ?%trim_elem_of; done).
  destruct (trim line) as [|c t] eqn:Ht; [done|].
  rewrite parse_chars_plain by done.
  by rewrite glue_nil by apply split_nonempty.
Qed.

Lemma parseCSV_fields_of_trimmed_line_witness :
  (CR ∉ js " a , b ") ∧ (LF ∉ js " a , b ") ∧ (QUOTE ∉ js " a , b ")
  ∧ parseCSV (js " a , b ") = [[js "a "; js " b"]].
Proof.
  split; [compute_done|]. split; [compute_done|]. split; [compute_done|].
  apply (parseCSV_fields_of_trimmed_line (js " a , b ")); compute_done.
Defined.

(** C8, as stated, fails: a single empty field joins to the empty text,
    which is a blank line and parses to a row without fields; a field
    that opens or closes the line with a blank comes back without it; a
    line feed inside a field ends the row and a carriage return is
    dropped. *)
Lemma roundtrip_counterexample :
  parseCSV (join COMMA [[]]) = [[]]
  ∧ parseCSV (join COMMA [js " a"; js "b "]) = [[js "a"; js "b"]]
  ∧ parseCSV (join COMMA [js "a" ++ [LF] ++ js "b"]) = [[js "a"]; [js "b"]]
  ∧ parseCSV (join COMMA [js "a" ++ [CR] ++ js "b"]) = [[js "ab"]]
  ∧ ¬ roundtrip_as_stated.
Proof.
  do 4 (split; [reflexivity|]).
  intros H.
  assert (Heq : parseCSV (join COMMA [[]]) = [[[]]]).
  { apply (H [[]]); [done|]. repeat constructor; compute_done. }
  discriminate Heq.
Qed.

(** C8 (amended): a non-empty sequence of fields, other than the single
    empty field, none of which contains a comma, a double quote, a
    carriage return or a line feed, whose first field does not open with
    a blank and whose last field does not close with one, is parsed back
    from its comma-join as exactly one row equal to the sequence. *)
Theorem parseCSV_join_roundtrip (fields : list jsstring) :
  fields ≠ [] → fields ≠ [[]] →
  Forall (λ f, (COMMA ∉ f) ∧ (QUOTE ∉ f) ∧ (CR ∉ f) ∧ (LF ∉ f)) fields →
  (∀ f c, head fields = Some f → head f = Some c → is_space c = false) →
  (∀ f c, last fields = Some f → last f = Some c → is_space c = false) →
  parseCSV (join COMMA fields) = [fields].
Proof.
  intros Hne Hne' Hall Hfirst Hlast.
  assert (Hcomma : Forall (λ f, COMMA ∉ f) fields)
    by (eapply Forall_impl; [exact Hall | by intros ? (? & ? & ? & ?)]).
  assert (Hquote : Forall (λ f, QUOTE ∉ f) fields)
    by (eapply Forall_impl; [exact Hall | by intros ? (? & ? & ? & ?)]).
  assert (Hcr : Forall (λ f, CR ∉ f) fields)
    by (eapply Forall_impl; [exact Hall | by intros ? (? & ? & ? & ?)]).
  assert (Hlf : Forall (λ f, LF ∉ f) fields)
    by (eapply Forall_impl; [exact Hall | by intros ? (? & ? & ? & ?)]).
  rewrite parseCSV_single_line by (by apply not_elem_of_join).
  unfold parse_line. rewrite trim_id.
  - pose proof (join_nonempty COMMA fields Hne Hne') as Hj.
    destruct (join COMMA fields) as [|c l] eqn:Hjoin; [done|].
    rewrite <- Hjoin, parse_chars_plain by (by apply not_elem_of_join).
    rewrite glue_nil by apply split_nonempty.
    by rewrite split_join.
  - intros c [->|(f & Hf & Hc)]%head_join; [done | eauto].
  - intros c [->|(f & Hf & Hc)]%last_join; [done | eauto].
Qed.

Lemma parseCSV_join_roundtrip_witness :
  parseCSV (join COMMA [js "Asha Rao"; js "17"; []; js "P"])
  = [[js "Asha Rao"; js "17"; []; js "P"]].
Proof.
  apply (parseCSV_join_roundtrip [js "Asha Rao"; js "17"; []; js "P"]).
  - done.
  - done.
  - repeat constructor; compute_done.
  - intros f c [= <-] [= <-]. reflexivity.
  - intros f c [= <-] [= <-]. reflexivity.
Defined.

(** C9: the line made of the quoted field a,b, a comma, and the quoted
    field c, doubled quote, d is parsed as the single row of the two
    fields a,b and c, quote, d.  In general, fields that hold commas and
    double quotes, written between double quotes with every inner double
    quote doubled and then comma-joined, are parsed back as one row of
    the original fields: a comma in quoted mode is a literal character
    and two consecutive double quotes in quoted mode give one. *)
Theorem parseCSV_quoting (fields : list jsstring) :
  fields ≠ [] →
  Forall (λ f, (CR ∉ f) ∧ (LF ∉ f)) fields →
  parseCSV ([QUOTE] ++ js "a,b" ++ [QUOTE; COMMA; QUOTE] ++ js "c"
            ++ [QUOTE; QUOTE] ++ js "d" ++ [QUOTE])
  = [[js "a,b"; js "c" ++ [QUOTE] ++ js "d"]]
  ∧ parseCSV (join COMMA (csv_quote <$> fields)) = [fields].
Proof.
  intros Hne Hall. split; [reflexivity|].
  assert (Hin : ∀ c, c ≠ QUOTE → Forall (λ f, c ∉ f) fields →
                     Forall (λ f, c ∉ f) (csv_quote <$> fields)).
  { intros c Hc H. apply Forall_fmap. eapply Forall_impl; [exact H|].
    intros f Hf. simpl. unfold csv_quote.
    rewrite not_elem_of_cons, not_elem_of_app, not_elem_of_cons.
    repeat split; [done | | done | apply not_elem_of_nil].
    clear -Hf Hc. induction f as [|d f IH]; [done|].
    apply not_elem_of_cons in Hf as [Hd Hf]. simpl.
    destruct (d =? QUOTE)%N; rewrite ?not_elem_of_cons; auto. }
  rewrite parseCSV_single_line.
  - unfold parse_line. rewrite trim_id.
    + destruct fields as [|f rest]; [done|].
      assert (Hj : join COMMA (csv_quote <$> f :: rest) ≠ [])
        by (by destruct rest).
      destruct (join COMMA (csv_quote <$> f :: rest)) as [|c l] eqn:Hjoin; [done|].
      rewrite <- Hjoin. by rewrite parse_chars_quoted_fields.
    + intros c [->|(f & Hf & Hc)]%head_join; [done|].
      destruct fields as [|g rest]; [done|].
      injection Hf as <-. by injection Hc as <-.
    + intros c [->|(f & Hf & Hc)]%last_join; [done|].
      rewrite fmap_last in Hf. destruct (last fields) as [g|]; [|done].
      injection Hf as <-. unfold csv_quote in Hc.
      rewrite last_cons, last_snoc in Hc. by injection Hc as <-.
  - apply not_elem_of_join; [done|]. apply Hin; [done|].
    eapply Forall_impl; [exact Hall | by intros ? [? ?]].
  - apply not_elem_of_join; [done|]. apply Hin; [done|].
    eapply Forall_impl; [exact Hall | by intros ? [? ?]].
Qed.

Lemma parseCSV_quoting_witness :
  parseCSV (join COMMA (csv_quote <$> [js "Rao, Asha"; js "7" ++ [QUOTE]]))
  = [[js "Rao, Asha"; js "7" ++ [QUOTE]]].
Proof.
  apply (parseCSV_quoting [js "Rao, Asha"; js "7" ++ [QUOTE]]).
  - done.
  - repeat constructor; compute_done.
Defined.

(** * Properties of the today detector *)

Section TodayFacts.

Lemma last_one_dated s : last_one s = true → dated s = true.
Proof.
  unfold last_one, dated. rewrite !bool_decide_eq_true.
  by destruct (Subject.presentByDate s).
Qed.

(** What the loop over the subjects leaves in its flags. *)
Lemma scan_subjects_flags ss f :
  scan_subjects ss f
  = mkFlags (hasAnySubject f || existsb dated ss)
            (anyPresent f || existsb last_one ss)
            (anySubjectWithDate f || existsb dated ss).
Proof.
  revert f. induction ss as [|s ss IH]; intros [h p d].
  - simpl. by rewrite !orb_false_r.
  - cbn [scan_subjects existsb hasAnySubject anyPresent anySubjectWithDate].
    destruct (Subject.presentByDate s) as [|x l] eqn:Hl.
    + assert (Hd : dated s = false)
        by (unfold dated; rewrite Hl; apply bool_decide_eq_false_2;
            intros H; by apply H).
      assert (Ho : last_one s = false)
        by (unfold last_one; rewrite Hl; by apply bool_decide_eq_false_2).
      rewrite Hd, Ho. simpl. by rewrite IH.
    + assert (Hd : dated s = true)
        by (unfold dated; rewrite Hl; by apply bool_decide_eq_true_2).
      assert (H0 : (0 <=? Z.of_nat (length (x :: l)) - 1) = true)
        by (apply Z.leb_le; simpl; lia).
      rewrite Hd, H0, !orb_true_r.
      replace (Z.to_nat (Z.of_nat (length (x :: l)) - 1))
        with (pred (length (x :: l))) by lia.
      rewrite <- last_lookup. unfold last_one. rewrite Hl.
      destruct (last (x :: l)) as [v|] eqn:Hv.
      * destruct (decide (v = 1)) as [->|Hne].
        -- rewrite bool_decide_eq_true_2 by done. by rewrite orb_true_r.
        -- rewrite (bool_decide_eq_false_2 (Some v = Some 1)) by congruence.
           transitivity (scan_subjects ss (mkFlags true p true)).
           { by destruct v as [|[q|q|]|]. }
           by rewrite IH.
      * rewrite (bool_decide_eq_false_2 (None = Some 1)) by done.
        by rewrite IH.
Qed.

Lemma existsb_subjects (P : Subject.t → bool) (st : Student.t) :
  existsb P (snd <$> map_to_list (Student.subjects st)) = true
  ↔ ∃ subj s, Student.subjects st !! subj = Some s ∧ P s = true.
Proof.
  rewrite existsb_exists. split.
  - intros (s & Hin & HP). apply list_elem_of_In, list_elem_of_fmap in Hin.
    destruct Hin as ([subj s'] & -> & Hin).
    apply elem_of_map_to_list in Hin. by exists subj, s'.
  - intros (subj & s & Hs & HP). exists s. split; [|done].
    apply list_elem_of_In, list_elem_of_fmap. exists (subj, s).
    split; [done|]. by apply elem_of_map_to_list.
Qed.

Lemma existsb_last_one_dated ss :
  existsb last_one ss = true → existsb dated ss = true.
Proof.
  rewrite !existsb_exists. intros (s & Hin & Hs).
  exists s. split; [done|]. by apply last_one_dated.
Qed.

Lemma mark_cases (st : Student.t) :
  mark st
  = if existsb last_one (snd <$> map_to_list (Student.subjects st))
    then Present
    else if existsb dated (snd <$> map_to_list (Student.subjects st))
         then Absent else Unknown.
Proof.
  unfold mark, student_flags. rewrite scan_subjects_flags. simpl.
  destruct (existsb last_one _) eqn:Hone.
  - by rewrite (existsb_last_one_dated _ Hone).
  - by destruct (existsb dated _).
Qed.

Lemma present_today_iff st :
  present_today st
  ↔ existsb last_one (snd <$> map_to_list (Student.subjects st)) = true.
Proof.
  rewrite existsb_subjects. unfold present_today, last_one.
  split; intros (subj & s & Hs & H); exists subj, s; split; try done.
  - apply bool_decide_eq_true. tauto.
  - apply bool_decide_eq_true in H. split; [|done].
    by destruct (Subject.presentByDate s).
Qed.

Lemma has_dated_subject_iff st :
  has_dated_subject st
  ↔ existsb dated (snd <$> map_to_list (Student.subjects st)) = true.
Proof.
  rewrite existsb_subjects. unfold has_dated_subject, dated.
  split; intros (subj & s & Hs & H); exists subj, s; split; try done.
  - by apply bool_decide_eq_true.
  - by apply bool_decide_eq_true in H.
Qed.

Lemma unknown_today_iff st : unknown_today st ↔ ¬ has_dated_subject st.
Proof.
  unfold unknown_today, has_dated_subject. split.
  - intros H (subj & s & Hs & Hne). by apply Hne, (H subj).
  - intros H subj s Hs.
    destruct (Subject.presentByDate s) as [|x l] eqn:Hl; [done|].
    destruct H. exists subj, s. by rewrite Hl.
Qed.

End TodayFacts.

Section CountFacts.

Lemma tally_cons k st l :
  tally k (st :: l) = (if decide (mark st = k) then 1 else 0) + tally k l.
Proof.
  unfold tally. rewrite filter_cons.
  destruct (decide (mark st = k)); simpl length; lia.
Qed.

Lemma fold_count l c :
  fold_left count l c
  = mkCounts (present c + tally Present l) (absent c + tally Absent l)
             (unknown c + tally Unknown l).
Proof.
  revert c. induction l as [|st l IH]; intros [p a u].
  - unfold tally. simpl. f_equal; lia.
  - simpl fold_left. rewrite IH, !tally_cons. unfold count.
    destruct (mark st); simpl; f_equal; lia.
Qed.

Lemma fold_count_total l c :
  let r := fold_left count l c in
  present r + absent r + unknown r
  = present c + absent c + unknown c + Z.of_nat (length l).
Proof.
  revert c. induction l as [|st l IH]; intros [p a u]; simpl in *; [lia|].
  rewrite IH. unfold count. destruct (mark st); simpl; lia.
Qed.

Lemma map_to_list_filter_perm (P : jsstring * Student.t → Prop)
      `{!∀ kv, Decision (P kv)} (m : gmap jsstring Student.t) :
  map_to_list (filter P m) ≡ₚ filter P (map_to_list m).
Proof.
  apply NoDup_Permutation.
  - apply NoDup_map_to_list.
  - apply NoDup_filter, NoDup_map_to_list.
  - intros [i x]. rewrite elem_of_map_to_list, map_lookup_filter_Some,
      list_elem_of_filter, elem_of_map_to_list. tauto.
Qed.

Lemma tally_fmap_snd k (l : list (jsstring * Student.t)) :
  tally k (snd <$> l)
  = Z.of_nat (length (filter (λ kv : jsstring * Student.t, mark kv.2 = k) l)).
Proof.
  unfold tally. f_equal. induction l as [|[i st] l IH]; [done|].
  rewrite fmap_cons, !filter_cons. simpl.
  destruct (decide (mark st = k)); simpl; by rewrite IH.
Qed.

Lemma marked_tally k m : marked k m = tally k (snd <$> map_to_list m).
Proof.
  unfold marked. rewrite tally_fmap_snd. f_equal.
  rewrite <- length_map_to_list. by rewrite map_to_list_filter_perm.
Qed.

End CountFacts.

(** ** The today detector's claims *)

(** C5: a student is marked present exactly when some subject record
    with a session has 1 as its last element, absent exactly when none
    has but some record has a session, unknown exactly when no record has
    a session (no subject at all included); and the three counts returned
    for a map are the numbers of its students so marked. *)
Theorem computeTodayCounts_classifies
        (m : gmap jsstring Student.t) (idx : gmap jsstring Z) :
  (∀ st, (mark st = Present ↔ present_today st)
         ∧ (mark st = Absent ↔ absent_today st)
         ∧ (mark st = Unknown ↔ unknown_today st))
  ∧ computeTodayCounts m idx
    = mkCounts (marked Present m) (marked Absent m) (marked Unknown m).
Proof.
  split.
  - intros st. rewrite mark_cases. unfold absent_today.
    rewrite unknown_today_iff, present_today_iff, has_dated_subject_iff.
    pose proof (existsb_last_one_dated
                  (snd <$> map_to_list (Student.subjects st))) as Himp.
    destruct (existsb last_one _), (existsb dated _);
      try (by discriminate Himp); intuition congruence.
  - unfold computeTodayCounts. rewrite fold_count, !marked_tally.
    f_equal; simpl; lia.
Qed.

(** C10: the three counts add up to the number of students of the map,
    every student adding one to exactly one of the counters. *)
Theorem computeTodayCounts_partition
        (m : gmap jsstring Student.t) (idx : gmap jsstring Z) :
  (let r := computeTodayCounts m idx in
   present r + absent r + unknown r = Z.of_nat (size m))
  ∧ ∀ c st,
      let c' := count c st in
      (present c' = present c + 1 ∧ absent c' = absent c
       ∧ unknown c' = unknown c)
      ∨ (present c' = present c ∧ absent c' = absent c + 1
         ∧ unknown c' = unknown c)
      ∨ (present c' = present c ∧ absent c' = absent c
         ∧ unknown c' = unknown c + 1).
Proof.
  split.
  - unfold computeTodayCounts. simpl.
    rewrite (fold_count_total (snd <$> map_to_list m) (mkCounts 0 0 0)).
    simpl. by rewrite length_fmap, length_map_to_list.
  - intros c st. unfold count. simpl. destruct (mark st); simpl; auto.
Qed.

(** * Properties of the aggregation *)

Section BuildInvariant.

Lemma mark_steps_length row cs acc :
  length (fold_left (mark_step row) cs acc).1
  = (length acc.1 + length cs)%nat.
Proof.
  revert acc. induction cs as [|c cs IH]; intros [pbd tot]; simpl; [lia|].
  rewrite IH. unfold mark_step.
  destruct (isPresent row c); simpl; rewrite length_app; simpl; lia.
Qed.

Lemma mark_row_length header row :
  length (mark_row header row).1 = (length header - dateStart)%nat.
Proof.
  unfold mark_row. by rewrite mark_steps_length, length_seq.
Qed.

Lemma new_student_ok name roll : student_ok (new_student name roll).
Proof. split; [done|]. intros subj s. simpl. by rewrite lookup_empty. Qed.

Lemma resolve_ok m name roll st :
  map_Forall (λ _, student_ok) m →
  resolve m name roll = Some st → student_ok st.
Proof.
  intros Hm. unfold resolve.
  destruct (m !! roll) as [st0|] eqn:Hst0.
  - pose proof (Hm _ _ Hst0) as Hok.
    destruct (Student.name st0), name; intros [= <-]; done.
  - case_bool_decide; [done|]. intros [= <-]. apply new_student_ok.
Qed.

Lemma record_subject_ok st subj rec :
  student_ok st → subject_ok rec → student_ok (record_subject st subj rec).
Proof.
  intros [Ht Hs] Hrec. split.
  - simpl. destruct Hrec as [Hrec _]. lia.
  - intros subj' s. simpl. rewrite lookup_insert.
    case_decide; [by intros [= <-] | apply Hs].
Qed.

Lemma process_row_ok subj header m row m' :
  map_Forall (λ _, student_ok) m →
  process_row subj header
              (Z.max 0 (Z.of_nat (length header) - Z.of_nat dateStart))
              m row = Some m' →
  map_Forall (λ _, student_ok) m'.
Proof.
  intros Hm. unfold process_row.
  destruct (trim (cell row rollIdx)) as [|c roll] eqn:Hroll;
    [by intros [= <-]|].
  destruct (resolve m _ _) as [st|] eqn:Hres; [|done]. simpl.
  pose proof (mark_row_length header row) as Hlen.
  destruct (mark_row header row) as [pbd tot]. simpl in Hlen.
  intros [= <-]. apply map_Forall_insert_2; [|done].
  apply record_subject_ok; [by eapply resolve_ok|].
  split; simpl; [lia|]. rewrite Hlen. unfold dateStart. lia.
Qed.

Lemma process_rows_ok subj header data m m' :
  map_Forall (λ _, student_ok) m →
  process_rows subj header
               (Z.max 0 (Z.of_nat (length header) - Z.of_nat dateStart))
               m data = Some m' →
  map_Forall (λ _, student_ok) m'.
Proof.
  revert m. induction data as [|row data IH]; intros m Hm; simpl.
  - by intros [= <-].
  - destruct (process_row _ _ _ m row) as [m1|] eqn:Hrow; [|done]. simpl.
    apply IH. by eapply process_row_ok.
Qed.

Lemma process_sheets_ok sheets acc b :
  map_Forall (λ _, student_ok) (Built.map acc) →
  process_sheets acc sheets = Some b →
  map_Forall (λ _, student_ok) (Built.map b).
Proof.
  revert acc. induction sheets as [|sheet sheets IH]; intros acc Hacc; simpl.
  - by intros [= <-].
  - destruct (process_sheet acc sheet) as [acc1|] eqn:Hsheet; [|done]. simpl.
    apply IH. unfold process_sheet in Hsheet.
    destruct (Sheet.rows sheet) as [|header data]; [by injection Hsheet as <-|].
    destruct (process_rows _ _ _ _ data) as [m1|] eqn:Hrows; [|done].
    injection Hsheet as <-. simpl. by eapply process_rows_ok.
Qed.

Lemma finish_ok st : student_ok st → student_ok (finish st).
Proof. by intros [Ht Hs]. Qed.

Lemma buildStudentsMap_lookup sheets b roll st :
  buildStudentsMap sheets = Some b →
  Built.map b !! roll = Some st →
  ∃ acc st0, process_sheets (Built.mk ∅ ∅) sheets = Some acc
             ∧ Built.map acc !! roll = Some st0 ∧ st = finish st0.
Proof.
  unfold buildStudentsMap.
  destruct (process_sheets _ sheets) as [acc|] eqn:Hacc; [|done]. simpl.
  intros [= <-]. simpl. rewrite lookup_fmap.
  destruct (Built.map acc !! roll) as [st0|] eqn:Hst0; [|done].
  intros [= <-]. by exists acc, st0.
Qed.

End BuildInvariant.

Section BuildSequencing.

Lemma process_rows_app subj header classesHeld m d1 d2 :
  process_rows subj header classesHeld m (d1 ++ d2)
  = m' ← process_rows subj header classesHeld m d1;
    process_rows subj header classesHeld m' d2.
Proof.
  revert m. induction d1 as [|row d1 IH]; intros m; simpl; [done|].
  destruct (process_row subj header classesHeld m row); simpl; [apply IH|done].
Qed.

Lemma process_sheets_app acc s1 s2 :
  process_sheets acc (s1 ++ s2)
  = acc' ← process_sheets acc s1; process_sheets acc' s2.
Proof.
  revert acc. induction s1 as [|sheet s1 IH]; intros acc; simpl; [done|].
  destruct (process_sheet acc sheet); simpl; [apply IH|done].
Qed.

Lemma process_row_empty_roll subj header classesHeld m row :
  trim (cell row rollIdx) = [] →
  process_row subj header classesHeld m row = Some m.
Proof. intros H. unfold process_row. by rewrite H. Qed.

Lemma process_rows_skip subj header classesHeld m d1 row d2 :
  trim (cell row rollIdx) = [] →
  process_rows subj header classesHeld m (d1 ++ row :: d2)
  = process_rows subj header classesHeld m (d1 ++ d2).
Proof.
  intros H. rewrite !process_rows_app.
  destruct (process_rows subj header classesHeld m d1); simpl; [|done].
  by rewrite process_row_empty_roll.
Qed.

End BuildSequencing.

Section NameFacts.

(** A stored name is never empty: a new student gets the row's name or
    the default. *)
Lemma new_student_name name roll :
  Student.name (new_student name roll) ≠ [].
Proof. by destruct name. Qed.

(** Hence the [else if] that would take a later name never fires: a roll
    already in the map is resolved to its student unchanged. *)
Lemma resolve_existing m name roll st0 :
  m !! roll = Some st0 → Student.name st0 ≠ [] →
  resolve m name roll = Some st0.
Proof.
  intros Hst0 Hname. unfold resolve. rewrite Hst0.
  by destruct (Student.name st0).
Qed.

Lemma process_row_names subj header classesHeld m row m' :
  map_Forall (λ _ st, Student.name st ≠ []) m →
  process_row subj header classesHeld m row = Some m' →
  map_Forall (λ _ st, Student.name st ≠ []) m'
  ∧ ∀ roll st, m !! roll = Some st →
      ∃ st', m' !! roll = Some st' ∧ Student.name st' = Student.name st.
Proof.
  intros Hm. unfold process_row.
  destruct (trim (cell row rollIdx)) as [|c r] eqn:Hroll.
  { intros [= <-]. split; [done|]. intros roll st Hst. by exists st. }
  destruct (resolve m _ _) as [st1|] eqn:Hres; [|done]. simpl.
  destruct (mark_row header row) as [pbd tot]. intros [= <-].
  assert (Hst1 : Student.name st1 ≠ []
                 ∧ ∀ st, m !! (c :: r) = Some st → st1 = st).
  { unfold resolve in Hres. destruct (m !! (c :: r)) as [st|] eqn:Hst.
    - pose proof (Hm _ _ Hst) as Hn.
      destruct (Student.name st) eqn:Hname; [done|].
      injection Hres as <-. rewrite Hname. split; [done|]. by intros ? [= <-].
    - case_bool_decide; [done|]. injection Hres as <-.
      split; [apply new_student_name | done]. }
  destruct Hst1 as [Hn1 Hsame]. split.
  - apply map_Forall_insert_2; [done | exact Hm].
  - intros roll st Hst. destruct (decide (roll = c :: r)) as [->|Hne].
    + rewrite lookup_insert_eq. eexists. split; [done|].
      by rewrite (Hsame st Hst).
    + rewrite lookup_insert_ne by done. by exists st.
Qed.

End NameFacts.

(** ** The aggregation's claims *)

(** C1: every student of the map that [buildStudentsMap] returns has
    [totals.present + totals.absent = totals.classesHeld], and every
    record of the student's [subjects] has
    [present + absent = classesHeld] and a [presentByDate] of length
    [classesHeld], whatever the number of cells of the rows. *)
Theorem buildStudentsMap_invariants sheets b roll st :
  buildStudentsMap sheets = Some b →
  Built.map b !! roll = Some st →
  Totals.present (Student.totals st) + Totals.absent (Student.totals st)
  = Totals.classesHeld (Student.totals st)
  ∧ ∀ subj s, Student.subjects st !! subj = Some s →
      Subject.present s + Subject.absent s = Subject.classesHeld s
      ∧ Z.of_nat (length (Subject.presentByDate s)) = Subject.classesHeld s.
Proof.
  intros Hb Hst.
  destruct (buildStudentsMap_lookup _ _ _ _ Hb Hst) as (acc & st0 & Hacc & Hst0 & ->).
  apply (finish_ok st0).
  eapply (process_sheets_ok sheets (Built.mk ∅ ∅) acc); [|done|done].
  apply map_Forall_empty.
Qed.

Lemma buildStudentsMap_invariants_witness :
  ∃ b st,
    buildStudentsMap short_row_sheets = Some b
    ∧ Built.map b !! js "7" = Some st
    ∧ Student.subjects st !! js "DBMS" = Some (Subject.mk 3 1 2 [1; 0; 0])
    ∧ Totals.present (Student.totals st) + Totals.absent (Student.totals st)
      = Totals.classesHeld (Student.totals st)
    ∧ ∀ subj s, Student.subjects st !! subj = Some s →
        Subject.present s + Subject.absent s = Subject.classesHeld s
        ∧ Z.of_nat (length (Subject.presentByDate s)) = Subject.classesHeld s.
Proof.
  eexists _, _.
  split; [vm_compute; reflexivity|].
  split; [vm_compute; reflexivity|].
  split; [vm_compute; reflexivity|].
  eapply (buildStudentsMap_invariants short_row_sheets _ (js "7"));
    vm_compute; reflexivity.
Defined.

(** C6: for every student of the returned map, [totals.percent] is the
    quotient [totals.present / totals.classesHeld] when
    [totals.classesHeld > 0] and 0 when it is 0, and [totals.status] is
    Good exactly when [totals.percent >= 0.75] and Needs Improvement
    otherwise; a percent of exactly 0.75 is Good. *)
Theorem buildStudentsMap_percent_status sheets b roll st :
  buildStudentsMap sheets = Some b →
  Built.map b !! roll = Some st →
  let t := Student.totals st in
  ∃ p status,
    Totals.percent t = Some p ∧ Totals.status t = Some status
    ∧ (0 < Totals.classesHeld t →
       p = JsNumber.div (JsNumber.of_Z (Totals.present t))
                        (JsNumber.of_Z (Totals.classesHeld t)))
    ∧ (Totals.classesHeld t = 0 → p = JsNumber.zero)
    ∧ (status = GOOD ↔ JsNumber.geb p JsNumber.threshold = true)
    ∧ (status = NEEDS_IMPROVEMENT ↔ JsNumber.geb p JsNumber.threshold = false)
    ∧ (p = JsNumber.threshold → status = GOOD).
Proof.
  intros Hb Hst.
  destruct (buildStudentsMap_lookup _ _ _ _ Hb Hst) as (acc & st0 & _ & _ & ->).
  simpl. eexists _, _. split; [reflexivity|]. split; [reflexivity|].
  split; [|split].
  - intros Hpos. apply Z.ltb_lt in Hpos. by rewrite Hpos.
  - intros Hzero. by rewrite Hzero.
  - assert (Hne : GOOD ≠ NEEDS_IMPROVEMENT) by discriminate.
    destruct (JsNumber.geb _ JsNumber.threshold) eqn:Hgeb.
    + repeat split; try done.
    + repeat split; try done. intros Hp. rewrite Hp in Hgeb.
      discriminate Hgeb.
Qed.

Lemma buildStudentsMap_percent_status_witness :
  ∃ b st,
    buildStudentsMap three_of_four_sheets = Some b
    ∧ Built.map b !! js "7" = Some st
    ∧ Totals.present (Student.totals st) = 3
    ∧ Totals.classesHeld (Student.totals st) = 4
    ∧ Totals.percent (Student.totals st) = Some JsNumber.threshold
    ∧ Totals.status (Student.totals st) = Some GOOD.
Proof.
  destruct (buildStudentsMap three_of_four_sheets) as [b|] eqn:Hb;
    [|by vm_compute in Hb].
  destruct (Built.map b !! js "7") as [st|] eqn:Hst;
    [|by (vm_compute in Hb; injection Hb as <-; vm_compute in Hst)].
  exists b, st. split; [done|]. split; [done|].
  destruct (buildStudentsMap_percent_status three_of_four_sheets b (js "7")
              st Hb Hst) as (p & status & Hp & Hs & Hdiv & _ & _ & _ & Hgood).
  assert (Hpres : Totals.present (Student.totals st) = 3)
    by (vm_compute in Hb; injection Hb as <-; vm_compute in Hst;
        by injection Hst as <-).
  assert (Hheld : Totals.classesHeld (Student.totals st) = 4)
    by (vm_compute in Hb; injection Hb as <-; vm_compute in Hst;
        by injection Hst as <-).
  split; [done|]. split; [done|].
  assert (Hthr : p = JsNumber.threshold).
  { rewrite Hdiv by (rewrite Hheld; lia). rewrite Hpres, Hheld.
    vm_compute. reflexivity. }
  split; [by rewrite Hp, Hthr|]. by rewrite Hs, (Hgood Hthr).
Defined.

(** C7: a data row whose trimmed roll field is empty is passed over
    without error: the row loop leaves the map as it found it, and
    [buildStudentsMap] returns what it returns for the sheets without
    that row: the same students with the same subjects and totals, or
    the same failure. *)
Theorem empty_roll_row_skipped pre post subj header d1 d2 row :
  trim (cell row rollIdx) = [] →
  (∀ hdr classesHeld m, process_row subj hdr classesHeld m row = Some m)
  ∧ buildStudentsMap (pre ++ Sheet.mk subj (header :: d1 ++ row :: d2) :: post)
    = buildStudentsMap (pre ++ Sheet.mk subj (header :: d1 ++ d2) :: post).
Proof.
  intros Hroll. split.
  - intros hdr classesHeld m. by apply process_row_empty_roll.
  - unfold buildStudentsMap. rewrite !process_sheets_app.
    destruct (process_sheets _ pre) as [acc|]; simpl; [|done].
    unfold process_sheet. simpl.
    by rewrite process_rows_skip.
Qed.

Lemma empty_roll_row_skipped_witness :
  buildStudentsMap
    [Sheet.mk (js "DBMS")
       [header_of [js "d1"];
        [[]; js "Ghost"; js "  "; js "P"];
        [[]; js "Asha"; js "7"; js "P"]]]
  = buildStudentsMap
      [Sheet.mk (js "DBMS")
         [header_of [js "d1"]; [[]; js "Asha"; js "7"; js "P"]]].
Proof.
  apply (empty_roll_row_skipped [] [] (js "DBMS") (header_of [js "d1"]) []
           [[[]; js "Asha"; js "7"; js "P"]]
           [[]; js "Ghost"; js "  "; js "P"]).
  reflexivity.
Defined.

(** C2, evaluated where it fails: roll 7 occurs in two rows of one sheet
    with a single session.  The subject record is stored once, so the
    fields of [subjects] sum to 1 session held and 1 present, while the
    totals have been added to twice and read 2 and 2. *)
Theorem duplicate_roll_double_counts :
  ∃ b st,
    buildStudentsMap duplicate_roll_sheets = Some b
    ∧ Built.map b !! js "7" = Some st
    ∧ Totals.classesHeld (Student.totals st) = 2
    ∧ subjects_sum Subject.classesHeld st = 1
    ∧ Totals.present (Student.totals st) = 2
    ∧ subjects_sum Subject.present st = 1
    ∧ Totals.absent (Student.totals st) = 0
    ∧ subjects_sum Subject.absent st = 0.
Proof.
  eexists _, _.
  split; [vm_compute; reflexivity|].
  split; [vm_compute; reflexivity|].
  repeat split; vm_compute; reflexivity.
Qed.

(** C3, evaluated where it fails: roll 7 first appears with an empty
    name, then in a row that names it Asha.  The first row stores the
    default, which is not empty, so the later name is never taken. *)
Theorem late_name_not_taken :
  ∃ b st,
    buildStudentsMap late_name_sheets = Some b
    ∧ Built.map b !! js "7" = Some st
    ∧ Student.name st = UNKNOWN
    ∧ Student.name st ≠ js "Asha".
Proof.
  eexists _, _.
  split; [vm_compute; reflexivity|].
  split; [vm_compute; reflexivity|].
  split; [vm_compute; reflexivity | discriminate].
Qed.

(** * Further properties of the parser *)

Section LineFacts.

Lemma split_app sep a b :
  split sep (a ++ sep :: b) = split sep a ++ split sep b.
Proof.
  induction a as [|c a IH]; simpl.
  - by rewrite N.eqb_refl.
  - destruct (N.eqb_spec c sep) as [->|_]; rewrite IH; [done|].
    pose proof (split_nonempty sep a). by destruct (split sep a).
Qed.

Lemma split_length sep s : length (split sep s) = S (occurrences sep s).
Proof.
  induction s as [|c s IH]; simpl; [done|].
  destruct (N.eqb_spec c sep) as [->|_]; simpl; [by rewrite IH|].
  pose proof (split_nonempty sep s).
  destruct (split sep s); [done|]. simpl in *. lia.
Qed.

Lemma remove_cr_app a b : remove_cr (a ++ b) = remove_cr a ++ remove_cr b.
Proof. unfold remove_cr. apply List.filter_app. Qed.

Lemma occurrences_remove_cr c s :
  c ≠ CR → occurrences c (remove_cr s) = occurrences c s.
Proof.
  intros Hc. induction s as [|d s IH]; [done|].
  unfold remove_cr in *. cbn [List.filter occurrences].
  destruct (N.eqb_spec d CR) as [->|_]; cbn [negb occurrences].
  - rewrite IH. by destruct (N.eqb_spec CR c) as [<-|_].
  - by rewrite IH.
Qed.

Lemma trimStart_nil_iff s :
  trimStart s = [] ↔ Forall (λ c, is_space c = true) s.
Proof.
  induction s as [|c s IH]; simpl; [by split|].
  destruct (is_space c) eqn:Hc.
  - rewrite IH, Forall_cons. tauto.
  - rewrite Forall_cons. split; [done|]. intros [H _]. congruence.
Qed.

Lemma trimStart_head s c :
  head (trimStart s) = Some c → is_space c = false.
Proof.
  induction s as [|d s IH]; simpl; [done|].
  destruct (is_space d) eqn:Hd; [done|]. by intros [= <-].
Qed.

Lemma trimStart_idem s : trimStart (trimStart s) = trimStart s.
Proof. apply trimStart_id, trimStart_head. Qed.

Lemma trim_nil_iff s : trim s = [] ↔ Forall (λ c, is_space c = true) s.
Proof.
  rewrite <- trimStart_nil_iff. unfold trim, trimEnd. split.
  - intros H. apply (f_equal reverse) in H.
    rewrite reverse_involutive in H. change (reverse []) with (@nil N) in H.
    apply trimStart_nil_iff in H. rewrite Forall_reverse in H.
    destruct (trimStart s) as [|c t] eqn:Ht; [done|].
    apply Forall_cons in H as [Hc _].
    by rewrite (trimStart_head s c) in Hc by (by rewrite Ht).
  - by intros ->.
Qed.

Lemma trim_head s c : head (trim s) = Some c → is_space c = false.
Proof.
  unfold trim, trimEnd. rewrite head_reverse. intros Hlast.
  destruct (trimStart s) as [|d t] eqn:Ht; [done|].
  assert (Hd : is_space d = false) by (apply (trimStart_head s); by rewrite Ht).
  destruct (trimStart_suffix (reverse (d :: t))) as [k Hk].
  assert (Hne : trimStart (reverse (d :: t)) ≠ []) by (by intros Hnil; rewrite Hnil in Hlast).
  assert (Hl : last (reverse (d :: t)) = Some c).
  { rewrite Hk, last_app, Hlast. done. }
  rewrite last_reverse in Hl. by injection Hl as <-.
Qed.

Lemma trim_last s c : last (trim s) = Some c → is_space c = false.
Proof.
  unfold trim, trimEnd. rewrite last_reverse. apply trimStart_head.
Qed.

Lemma trim_idem s : trim (trim s) = trim s.
Proof. apply trim_id; [apply trim_head | apply trim_last]. Qed.

End LineFacts.

Section RowFacts.

Lemma parse_chars_length n : ∀ l inQuotes cur row,
  (length l ≤ n)%nat →
  (length row + 1 ≤ length (parse_chars l inQuotes cur row)
   ∧ length (parse_chars l inQuotes cur row)
     ≤ length row + 1 + occurrences COMMA l)%nat.
Proof.
  induction n as [|n IH]; intros [|ch rest] q cur row Hn; simpl in Hn.
  1, 3: simpl; rewrite length_app; simpl; lia.
  { lia. }
  cbn [parse_chars occurrences].
  destruct (N.eqb_spec ch QUOTE) as [->|Hq].
  - change (QUOTE =? COMMA)%N with false. cbv iota.
    destruct rest as [|ch2 rest2].
    + simpl. rewrite length_app. simpl. lia.
    + destruct (q && (ch2 =? QUOTE)%N) eqn:Hesc.
      * apply andb_true_iff in Hesc as [_ ->%N.eqb_eq].
        specialize (IH rest2 q (cur ++ [QUOTE]) row).
        cbn [occurrences]. change (QUOTE =? COMMA)%N with false.
        cbv iota. cbn [length] in Hn. lia.
      * specialize (IH (ch2 :: rest2) (negb q) cur row).
        cbn [length] in *. lia.
  - destruct (N.eqb_spec ch COMMA) as [->|Hc]; simpl andb.
    + destruct q; simpl negb.
      * specialize (IH rest true (cur ++ [COMMA]) row). lia.
      * specialize (IH rest false [] (row ++ [cur])).
        rewrite length_app in IH. simpl in IH. lia.
    + specialize (IH rest q (cur ++ [ch]) row). lia.
Qed.

Lemma parse_chars_nonempty l inQuotes cur row :
  parse_chars l inQuotes cur row ≠ [].
Proof.
  pose proof (parse_chars_length (length l) l inQuotes cur row) as H.
  intros Hnil. rewrite Hnil in H. simpl in H. lia.
Qed.

Lemma parse_line_nil_iff raw : parse_line raw = [] ↔ trim raw = [].
Proof.
  unfold parse_line. destruct (trim raw) as [|c t]; [done|].
  split; [|done]. intros H. by apply parse_chars_nonempty in H.
Qed.


Lemma remove_cr_join_crlf lines :
  Forall (λ l, CR ∉ l) lines →
  remove_cr (join_with [CR; LF] lines) = join LF lines.
Proof.
  induction lines as [|l [|l' rest] IH]; [done| |].
  - intros [Hl _]%Forall_cons. simpl. by apply remove_cr_id.
  - intros [Hl Hrest]%Forall_cons.
    change (join_with [CR; LF] (l :: l' :: rest))
      with (l ++ [CR; LF] ++ join_with [CR; LF] (l' :: rest)).
    rewrite join_cons2, !remove_cr_app, IH by done.
    by rewrite remove_cr_id.
Qed.

End RowFacts.

(** ** Rows and lines *)

(** X1: the result has one row for every line of the text, blank lines
    included: one more than the number of line feeds.  It is never
    empty. *)
Theorem parseCSV_row_count (text : jsstring) :
  length (parseCSV text) = S (occurrences LF text).
Proof.
  unfold parseCSV. rewrite length_map, split_length.
  by rewrite occurrences_remove_cr.
Qed.

(** X2: the rows of two texts put together with a line feed are the rows
    of the first followed by the rows of the second. *)
Theorem parseCSV_app (a b : jsstring) :
  parseCSV (a ++ LF :: b) = parseCSV a ++ parseCSV b.
Proof.
  unfold parseCSV. rewrite remove_cr_app.
  change (remove_cr (LF :: b)) with (LF :: remove_cr b).
  by rewrite split_app, map_app.
Qed.

(** X3: a one-line text gives the row without fields exactly when every
    character of it is white space (the empty text included); any other
    line gives at least one field. *)
Theorem parseCSV_blank_iff (text : jsstring) :
  LF ∉ text →
  (parseCSV text = [[]] ↔ Forall (λ c, is_space c = true) text)
  ∧ ∃ row, parseCSV text = [row]
           ∧ (row ≠ [] ↔ ¬ Forall (λ c, is_space c = true) text).
Proof.
  intros Hlf.
  assert (Hlf' : LF ∉ remove_cr text).
  { unfold remove_cr. rewrite list_elem_of_In, List.filter_In,
      <- list_elem_of_In. tauto. }
  assert (Hone : parseCSV text = [parse_line (remove_cr text)]).
  { unfold parseCSV. by rewrite split_no_sep. }
  assert (Hblank : parse_line (remove_cr text) = []
                   ↔ Forall (λ c, is_space c = true) text).
  { rewrite parse_line_nil_iff, trim_nil_iff, !Forall_forall.
    unfold remove_cr. split.
    - intros H c Hc. destruct (N.eqb_spec c CR) as [->|Hne]; [done|].
      apply H. rewrite list_elem_of_In, List.filter_In, <- list_elem_of_In.
      split; [done|]. by apply negb_true_iff, N.eqb_neq.
    - intros H c Hc. apply H.
      rewrite list_elem_of_In, List.filter_In, <- list_elem_of_In in Hc.
      tauto. }
  rewrite Hone. split.
  - rewrite <- Hblank. split; [by intros [= ->] | by intros ->].
  - eexists. split; [done|]. by rewrite <- Hblank.
Qed.

Lemma parseCSV_blank_iff_witness :
  parseCSV (js "  " ++ [CR]) = [[]].
Proof.
  apply (parseCSV_blank_iff (js "  " ++ [CR])); [compute_done|].
  repeat constructor.
Defined.



(** X5: a line that is not blank gives a row of at least one field and
    of at most one field more than the trimmed line has commas; exactly
    that many when the line has no double quote. *)
Theorem parseCSV_field_count (text : jsstring) :
  CR ∉ text → LF ∉ text → trim text ≠ [] →
  ∃ row, parseCSV text = [row]
    ∧ (1 ≤ length row ≤ 1 + occurrences COMMA (trim text))%nat
    ∧ (QUOTE ∉ text → length row = S (occurrences COMMA (trim text))).
Proof.
  intros Hcr Hlf Hne. rewrite parseCSV_single_line by done.
  eexists. split; [done|]. unfold parse_line.
  destruct (trim text) as [|c t] eqn:Ht; [done|]. split.
  - pose proof (parse_chars_length _ (c :: t) false [] [] (le_n _)) as H.
    change (length (@nil jsstring)) with 0%nat in H. lia.
  - intros Hq. rewrite parse_chars_plain.
    + rewrite glue_nil by apply split_nonempty. apply split_length.
    + rewrite <- Ht. by intros ?%trim_elem_of.
Qed.

Lemma parseCSV_field_count_witness :
  ∃ row, parseCSV (js ",Asha,17,P,,A") = [row] ∧ length row = 6%nat.
Proof.
  destruct (parseCSV_field_count (js ",Asha,17,P,,A"))
    as (row & Hrow & _ & Hlen); [compute_done.. | done |].
  exists row. split; [done|]. rewrite Hlen by compute_done. reflexivity.
Defined.

(** X6: lines ended by carriage return and line feed parse like lines
    ended by line feed alone: one row per line, each the row of its
    line. *)
Theorem parseCSV_crlf (lines : list jsstring) :
  lines ≠ [] →
  Forall (λ l, (CR ∉ l) ∧ (LF ∉ l)) lines →
  parseCSV (join_with [CR; LF] lines) = parse_line <$> lines
  ∧ parseCSV (join LF lines) = parse_line <$> lines.
Proof.
  intros Hne Hall.
  assert (Hcr : Forall (λ l, CR ∉ l) lines)
    by (eapply Forall_impl; [exact Hall | by intros ? [? ?]]).
  assert (Hlf : Forall (λ l, LF ∉ l) lines)
    by (eapply Forall_impl; [exact Hall | by intros ? [? ?]]).
  unfold parseCSV. rewrite remove_cr_join_crlf by done.
  rewrite (remove_cr_id (join LF lines)) by (by apply not_elem_of_join).
  by rewrite split_join.
Qed.

Lemma parseCSV_crlf_witness :
  parseCSV (js "a,b" ++ [CR; LF] ++ js "c,d") = [[js "a"; js "b"]; [js "c"; js "d"]].
Proof.
  apply (parseCSV_crlf [js "a,b"; js "c,d"]); [done|].
  repeat constructor; compute_done.
Defined.

(** * Properties of escapeHtml *)

Section HtmlFacts.

Lemma replace_all_app c by_ a b :
  replace_all c by_ (a ++ b) = replace_all c by_ a ++ replace_all c by_ b.
Proof.
  induction a as [|d a IH]; simpl; [done|]. by rewrite IH, <- app_assoc.
Qed.

(** The three passes amount to one pass that rewrites each character on
    its own: the entities written by an earlier pass hold none of the
    characters a later pass looks for. *)
Lemma escapeHtml_cons c s :
  escapeHtml (c :: s) = escape_char c ++ escapeHtml s.
Proof.
  unfold escapeHtml, escape_char. cbn [replace_all].
  rewrite !replace_all_app.
  destruct (N.eqb_spec c AMP) as [->|Hamp]; [done|].
  cbn [replace_all]. rewrite app_nil_r.
  destruct (N.eqb_spec c LT) as [->|Hlt]; [done|].
  cbn [replace_all]. rewrite app_nil_r.
  by destruct (N.eqb_spec c GT) as [->|Hgt].
Qed.

Lemma unescapeHtml_other c r :
  c ≠ AMP → unescapeHtml (c :: r) = c :: unescapeHtml r.
Proof.
  intros Hc%N.eqb_neq.
  destruct r as [|c1 [|c2 [|c3 [|c4 r4]]]]; cbn [unescapeHtml];
    by rewrite ?Hc.
Qed.

Lemma unescapeHtml_escape_char c r :
  unescapeHtml (escape_char c ++ r) = c :: unescapeHtml r.
Proof.
  unfold escape_char.
  destruct (N.eqb_spec c AMP) as [->|Hamp]; [done|].
  destruct (N.eqb_spec c LT) as [->|Hlt]; [done|].
  destruct (N.eqb_spec c GT) as [->|Hgt]; [done|].
  by apply unescapeHtml_other.
Qed.

Lemma escape_char_length c :
  length (escape_char c)
  = (1 + (if (c =? AMP)%N then 4 else 0) + (if (c =? LT)%N then 3 else 0)
     + (if (c =? GT)%N then 3 else 0))%nat.
Proof.
  unfold escape_char.
  destruct (N.eqb_spec c AMP) as [->|Hamp]; [done|].
  destruct (N.eqb_spec c LT) as [->|Hlt]; [done|].
  by destruct (N.eqb_spec c GT) as [->|Hgt].
Qed.

Lemma occurrences_zero c s : occurrences c s = 0%nat ↔ c ∉ s.
Proof.
  induction s as [|d s IH]; simpl.
  - split; [intros _; apply not_elem_of_nil | done].
  - rewrite not_elem_of_cons, <- IH.
    destruct (N.eqb_spec d c) as [->|Hne]; split.
    + done.
    + by intros [? _].
    + intros H. split; [done | lia].
    + intros [_ H]. lia.
Qed.

End HtmlFacts.

(** X7: the result holds no [<] and no [>], whatever the input. *)
Theorem escapeHtml_no_angle (s : jsstring) :
  (LT ∉ escapeHtml s) ∧ (GT ∉ escapeHtml s).
Proof.
  induction s as [|c s [IHl IHg]]; [split; apply not_elem_of_nil|].
  rewrite escapeHtml_cons, !not_elem_of_app. unfold escape_char.
  destruct (N.eqb_spec c AMP) as [->|Hamp]; [by repeat split; try compute_done|].
  destruct (N.eqb_spec c LT) as [->|Hlt]; [by repeat split; try compute_done|].
  destruct (N.eqb_spec c GT) as [->|Hgt]; [by repeat split; try compute_done|].
  rewrite !not_elem_of_cons. repeat split; try done; apply not_elem_of_nil.
Qed.

(** X8: escaping a concatenation is concatenating the escaped parts, so
    text escaped piece by piece is escaped as a whole. *)
Theorem escapeHtml_app (a b : jsstring) :
  escapeHtml (a ++ b) = escapeHtml a ++ escapeHtml b.
Proof.
  induction a as [|c a IH]; [done|].
  by rewrite <- app_comm_cons, !escapeHtml_cons, IH, app_assoc.
Qed.

(** X9: nothing is lost: reading the three entities back gives the
    original text, also when the text already held entities; two
    different texts are never escaped to the same one. *)
Theorem escapeHtml_round_trip (s t : jsstring) :
  unescapeHtml (escapeHtml s) = s
  ∧ (escapeHtml s = escapeHtml t → s = t).
Proof.
  assert (Hrt : ∀ u, unescapeHtml (escapeHtml u) = u).
  { induction u as [|c u IH]; [done|].
    by rewrite escapeHtml_cons, unescapeHtml_escape_char, IH. }
  split; [apply Hrt|]. intros H.
  by rewrite <- (Hrt s), <- (Hrt t), H.
Qed.

(** X10: the result is longer than the text by four characters for each
    ampersand and three for each angle bracket; it is the text itself
    exactly when the text has none of the three, so quotes and
    apostrophes are never escaped. *)
Theorem escapeHtml_length (s : jsstring) :
  length (escapeHtml s)
  = (length s + 4 * occurrences AMP s + 3 * occurrences LT s
     + 3 * occurrences GT s)%nat
  ∧ (escapeHtml s = s ↔ (AMP ∉ s) ∧ (LT ∉ s) ∧ (GT ∉ s)).
Proof.
  assert (Hlen : ∀ u, length (escapeHtml u)
                      = (length u + 4 * occurrences AMP u
                         + 3 * occurrences LT u + 3 * occurrences GT u)%nat).
  { induction u as [|c u IH]; [done|].
    rewrite escapeHtml_cons, length_app, escape_char_length, IH.
    cbn [occurrences length].
    destruct (c =? AMP)%N, (c =? LT)%N, (c =? GT)%N; lia. }
  split; [apply Hlen|]. rewrite <- !occurrences_zero. split.
  - intros H. pose proof (Hlen s) as Hl. rewrite H in Hl. lia.
  - intros (Ha & Hl & Hg). apply occurrences_zero in Ha, Hl, Hg.
    clear Hlen. induction s as [|c s IH]; [done|].
    apply not_elem_of_cons in Ha as [Ha Ha'], Hl as [Hl Hl'], Hg as [Hg Hg'].
    rewrite escapeHtml_cons, IH by done. unfold escape_char.
    destruct (N.eqb_spec c AMP) as [->|_]; [done|].
    destruct (N.eqb_spec c LT) as [->|_]; [done|].
    by destruct (N.eqb_spec c GT) as [->|_].
Qed.

(** * Further properties of the aggregation *)

Section EntryFacts.

Lemma run_entries_app m es1 es2 :
  run_entries m (es1 ++ es2) = m' ← run_entries m es1; run_entries m' es2.
Proof.
  revert m. induction es1 as [|e es1 IH]; intros m; simpl; [done|].
  destruct (apply_entry m e); simpl; [apply IH | done].
Qed.

Lemma process_rows_entries subj header m data :
  process_rows subj header (classesHeld_of header) m data
  = run_entries m (mkEntry subj header <$> data).
Proof.
  revert m. induction data as [|row data IH]; intros m; simpl; [done|].
  unfold apply_entry at 1. simpl.
  destruct (process_row _ _ _ m row); simpl; [apply IH | done].
Qed.

Lemma process_sheets_map acc sheets :
  Built.map <$> process_sheets acc sheets
  = run_entries (Built.map acc) (entries sheets).
Proof.
  revert acc. induction sheets as [|sheet sheets IH]; intros acc; [done|].
  unfold entries. rewrite bind_cons, run_entries_app. fold (entries sheets).
  simpl. unfold process_sheet, sheet_entries.
  destruct (Sheet.rows sheet) as [|header data]; simpl; [apply IH|].
  fold (classesHeld_of header). rewrite process_rows_entries.
  destruct (run_entries _ (mkEntry _ header <$> data)); simpl; [|done].
  by rewrite IH.
Qed.

Lemma buildStudentsMap_entries sheets :
  Built.map <$> buildStudentsMap sheets
  = fmap finish <$> run_entries ∅ (entries sheets).
Proof.
  unfold buildStudentsMap.
  pose proof (process_sheets_map (Built.mk ∅ ∅) sheets) as H. simpl in H.
  rewrite <- H. by destruct (process_sheets _ sheets).
Qed.

Lemma elem_of_entries e sheets :
  e ∈ entries sheets
  ↔ ∃ sheet header data row,
      sheet ∈ sheets ∧ Sheet.rows sheet = header :: data ∧ row ∈ data
      ∧ e = mkEntry (Sheet.subject sheet) header row.
Proof.
  unfold entries. rewrite list_elem_of_bind. split.
  - intros (sheet & He & Hsheet). unfold sheet_entries in He.
    destruct (Sheet.rows sheet) as [|header data] eqn:Hrows;
      [by apply elem_of_nil in He|].
    apply list_elem_of_fmap in He as (row & -> & Hrow).
    by exists sheet, header, data, row.
  - intros (sheet & header & data & row & Hsheet & Hrows & Hrow & ->).
    exists sheet. split; [|done]. unfold sheet_entries. rewrite Hrows.
    by apply list_elem_of_fmap_2.
Qed.

Lemma rows_sum_snoc f rows e :
  rows_sum f (rows ++ [e]) = rows_sum f rows + f (record_of e).
Proof.
  unfold rows_sum. induction rows as [|e' rows IH]; [simpl; lia|].
  rewrite <- app_comm_cons, !fmap_cons. cbn [foldr]. rewrite IH. lia.
Qed.

Lemma subjects_of_snoc rows e :
  subjects_of (rows ++ [e]) = <[e_subject e := record_of e]> (subjects_of rows).
Proof. unfold subjects_of. by rewrite foldl_snoc. Qed.

Lemma student_of_snoc r rows e :
  student_of r (rows ++ [e])
  = Some (record_subject (default (new_student (name_of e) r)
                                  (student_of r rows))
                         (e_subject e) (record_of e)).
Proof.
  destruct rows as [|e0 rows].
  - simpl. unfold record_subject, new_student, rows_sum, subjects_of. simpl.
    do 2 f_equal; [by destruct (name_of e) | f_equal; lia].
  - rewrite <- app_comm_cons. unfold student_of.
    rewrite app_comm_cons, subjects_of_snoc, !rows_sum_snoc. done.
Qed.

Lemma student_of_name r rows st :
  student_of r rows = Some st → Student.name st ≠ [] ∧ Student.roll st = r.
Proof.
  destruct rows as [|e rows]; [done|]. intros [= <-]. simpl.
  split; [|done]. by destruct (name_of e).
Qed.

Lemma rows_of_snoc r es e :
  rows_of r (es ++ [e])
  = rows_of r es ++ (if decide (roll_of e = r) then [e] else []).
Proof.
  unfold rows_of. by rewrite filter_app.
Qed.

End EntryFacts.

Section RunFacts.

Lemma apply_entry_empty_roll m e :
  roll_of e = [] → apply_entry m e = Some m.
Proof. intros H. by apply process_row_empty_roll. Qed.

Lemma apply_entry_roll m e :
  roll_of e ≠ [] →
  apply_entry m e
  = st ← resolve m (name_of e) (roll_of e);
    Some (<[roll_of e := record_subject st (e_subject e) (record_of e)]> m).
Proof.
  intros Hroll. unfold apply_entry, process_row, record_of.
  fold (roll_of e). fold (name_of e).
  destruct (roll_of e) as [|c r] eqn:Hr; [done|].
  destruct (resolve m (name_of e) (c :: r)); simpl; [|done].
  by destruct (mark_row (e_header e) (e_row e)).
Qed.

Lemma resolve_fresh m name r :
  m !! r = None →
  resolve m name r
  = if bool_decide (r ∈ Object_prototype_keys) then None
    else Some (new_student name r).
Proof. intros H. unfold resolve. by rewrite H. Qed.

Lemma empty_not_prototype_key : [] ∉ Object_prototype_keys.
Proof. compute_done. Qed.

(** The map after the rows [es]: every roll holds the student its own
    rows add up to, whatever rows of other rolls came in between; the
    run fails exactly when a roll names a property of
    [Object.prototype]. *)
Lemma run_entries_spec es :
  match run_entries ∅ es with
  | None => Exists (λ e, roll_of e ∈ Object_prototype_keys) es
  | Some m =>
      Forall (λ e, roll_of e ∉ Object_prototype_keys) es
      ∧ ∀ r, m !! r = if decide (r = []) then None
                      else student_of r (rows_of r es)
  end.
Proof.
  induction es as [|e es IH] using rev_ind.
  - simpl. split; [constructor|]. intros r. rewrite lookup_empty.
    by destruct (decide (r = [])).
  - rewrite run_entries_app.
    destruct (run_entries ∅ es) as [m|]; simpl;
      [|by apply Exists_app; left].
    destruct IH as [Hok Hlook].
    destruct (decide (roll_of e = [])) as [Hnil|Hroll].
    { rewrite apply_entry_empty_roll by done. simpl. split.
      - apply Forall_app. split; [done|]. constructor; [|constructor].
        rewrite Hnil. apply empty_not_prototype_key.
      - intros r. rewrite Hlook, rows_of_snoc.
        destruct (decide (r = [])) as [->|Hr]; [done|].
        destruct (decide (roll_of e = r)) as [<-|_]; [done|].
        by rewrite app_nil_r. }
    rewrite apply_entry_roll by done.
    pose proof (Hlook (roll_of e)) as Hme.
    destruct (decide (roll_of e = [])) as [|_]; [done|].
    assert (Hother : ∀ st r, r ≠ roll_of e →
              <[roll_of e := st]> m !! r
              = if decide (r = []) then None
                else student_of r (rows_of r (es ++ [e]))).
    { intros st r Hr. rewrite lookup_insert_ne, Hlook, rows_of_snoc by done.
      destruct (decide (roll_of e = r)) as [<-|_]; [done|].
      by rewrite app_nil_r. }
    assert (Hself : ∀ r, r = roll_of e →
              Some (record_subject
                      (default (new_student (name_of e) (roll_of e))
                               (student_of (roll_of e) (rows_of (roll_of e) es)))
                      (e_subject e) (record_of e))
              = if decide (r = []) then None
                else student_of r (rows_of r (es ++ [e]))).
    { intros r ->. destruct (decide (roll_of e = [])) as [|_]; [done|].
      rewrite rows_of_snoc. destruct (decide (roll_of e = roll_of e)); [|done].
      by rewrite student_of_snoc. }
    destruct (student_of (roll_of e) (rows_of (roll_of e) es))
      as [st0|] eqn:Hst0.
    + rewrite (resolve_existing m (name_of e) (roll_of e) st0 Hme)
        by (by eapply student_of_name).
      simpl. split.
      * apply Forall_app. split; [done|]. constructor; [|constructor].
        destruct (rows_of (roll_of e) es) as [|e' rest] eqn:Hrows; [done|].
        assert (He' : e' ∈ rows_of (roll_of e) es) by (rewrite Hrows; left).
        apply list_elem_of_filter in He' as [Heq He'].
        rewrite <- Heq. rewrite Forall_forall in Hok. by apply Hok.
      * intros r. destruct (decide (r = roll_of e)) as [->|Hr].
        -- rewrite lookup_insert_eq. by apply Hself.
        -- by apply Hother.
    + rewrite resolve_fresh by done.
      case_bool_decide as Hbad; simpl.
      * apply Exists_app. right. by constructor.
      * split.
        -- apply Forall_app. split; [done|]. by repeat constructor.
        -- intros r. destruct (decide (r = roll_of e)) as [->|Hr].
           ++ rewrite lookup_insert_eq. by apply Hself.
           ++ by apply Hother.
Qed.

Lemma buildStudentsMap_student sheets b r st :
  buildStudentsMap sheets = Some b →
  Built.map b !! r = Some st →
  r ≠ [] ∧ ∃ st0, student_of r (rows_of r (entries sheets)) = Some st0
                  ∧ st = finish st0.
Proof.
  intros Hb Hst. pose proof (buildStudentsMap_entries sheets) as He.
  pose proof (run_entries_spec (entries sheets)) as Hspec.
  rewrite Hb in He. simpl in He.
  destruct (run_entries ∅ (entries sheets)) as [m|]; [|done].
  injection He as He. rewrite He, lookup_fmap in Hst.
  destruct Hspec as [_ Hlook]. rewrite Hlook in Hst.
  destruct (decide (r = [])); [done|]. split; [done|].
  destruct (student_of r _) as [st0|]; [|done].
  injection Hst as <-. by exists st0.
Qed.



End RunFacts.

Section StudentFacts.

Lemma subjects_of_lookup rows subj :
  subjects_of rows !! subj
  = record_of <$> last (filter (λ e, e_subject e = subj) rows).
Proof.
  induction rows as [|e rows IH] using rev_ind; [done|].
  rewrite subjects_of_snoc, filter_app, filter_cons, filter_nil.
  destruct (decide (e_subject e = subj)) as [<-|Hne].
  - by rewrite lookup_insert_eq, last_snoc.
  - by rewrite lookup_insert_ne, app_nil_r.
Qed.

Lemma foldr_add_perm {A} (f : A → Z) (l k : list A) :
  l ≡ₚ k → foldr Z.add 0 (f <$> l) = foldr Z.add 0 (f <$> k).
Proof.
  induction 1 as [|x l k _ IH|x y l|l k j _ IH1 _ IH2];
    rewrite ?fmap_cons; cbn [foldr]; lia.
Qed.


End StudentFacts.

(** ** Which students the map holds *)


(** X12: when a map is returned, a roll is one of its keys exactly when
    it is not empty and is the trimmed roll of some data row of some
    sheet, and the student stored under a key has that key as its
    [roll]. *)
Theorem buildStudentsMap_keys sheets b (r : jsstring) :
  buildStudentsMap sheets = Some b →
  (is_Some (Built.map b !! r)
   ↔ r ≠ [] ∧ ∃ sheet header data row,
       sheet ∈ sheets ∧ Sheet.rows sheet = header :: data ∧ row ∈ data
       ∧ trim (cell row rollIdx) = r)
  ∧ ∀ st, Built.map b !! r = Some st → Student.roll st = r.
Proof.
  intros Hb. split.
  - split.
    + intros [st Hst].
      destruct (buildStudentsMap_student _ _ _ _ Hb Hst) as (Hr & st0 & Hst0 & _).
      split; [done|].
      destruct (rows_of r (entries sheets)) as [|e rest] eqn:Hrows; [done|].
      assert (He : e ∈ rows_of r (entries sheets)) by (rewrite Hrows; left).
      apply list_elem_of_filter in He as [Heq He].
      apply elem_of_entries in He
        as (sheet & header & data & row & ? & ? & ? & ->).
      by exists sheet, header, data, row.
    + intros (Hr & sheet & header & data & row & Hs & Hrows & Hrow & Hroll).
      pose proof (buildStudentsMap_entries sheets) as He.
      pose proof (run_entries_spec (entries sheets)) as Hspec.
      rewrite Hb in He. simpl in He.
      destruct (run_entries ∅ (entries sheets)) as [m|]; [|done].
      injection He as ->. rewrite lookup_fmap.
      destruct Hspec as [_ Hlook]. rewrite Hlook.
      destruct (decide (r = [])); [done|].
      assert (He : mkEntry (Sheet.subject sheet) header row
                   ∈ rows_of r (entries sheets)).
      { apply list_elem_of_filter. split; [done|].
        apply elem_of_entries. by exists sheet, header, data, row. }
      destruct (rows_of r (entries sheets)); [by apply elem_of_nil in He|].
      by eexists.
  - intros st Hst.
    destruct (buildStudentsMap_student _ _ _ _ Hb Hst) as (_ & st0 & Hst0 & ->).
    simpl. by apply (student_of_name _ _ _ Hst0).
Qed.

Lemma buildStudentsMap_keys_witness :
  ∃ b st, buildStudentsMap short_row_sheets = Some b
          ∧ Built.map b !! js "7" = Some st
          ∧ Student.roll st = js "7".
Proof.
  destruct (buildStudentsMap short_row_sheets) as [b|] eqn:Hb;
    [|by vm_compute in Hb].
  destruct (buildStudentsMap_keys short_row_sheets b (js "7") Hb) as [Hin Hroll].
  destruct (proj2 Hin) as [st Hst].
  { split; [done|]. eexists _, _, _, _.
    split; [left|]. split; [reflexivity|]. split; [left|]. reflexivity. }
  exists b, st. split; [done|]. split; [done|]. by apply Hroll.
Defined.

(** Runs [buildStudentsMap] on sample sheets and looks a roll up. *)
Ltac run_build sheets key b st Hb Hst :=
  destruct (buildStudentsMap sheets) as [b|] eqn:Hb;
    [|by vm_compute in Hb];
  destruct (Built.map b !! key) as [st|] eqn:Hst;
    [|by (vm_compute in Hb; injection Hb as <-; vm_compute in Hst)].

(** X13: a student's name is never empty: it is the trimmed name of the
    first data row carrying the roll, in the order of the sheets and of
    their rows, or Unknown when that name is empty; no later row
    changes it. *)
Theorem buildStudentsMap_name sheets b (r : jsstring) st :
  buildStudentsMap sheets = Some b →
  Built.map b !! r = Some st →
  Student.name st ≠ []
  ∧ ∃ e rest, rows_of r (entries sheets) = e :: rest
      ∧ Student.name st = match name_of e with [] => UNKNOWN | n => n end.
Proof.
  intros Hb Hst.
  destruct (buildStudentsMap_student _ _ _ _ Hb Hst) as (_ & st0 & Hst0 & ->).
  split; [by apply (student_of_name _ _ _ Hst0)|].
  destruct (rows_of r (entries sheets)) as [|e rest]; [done|].
  exists e, rest. split; [done|]. by injection Hst0 as <-.
Qed.

Lemma buildStudentsMap_name_witness :
  ∃ b st, buildStudentsMap late_name_sheets = Some b
          ∧ Built.map b !! js "7" = Some st
          ∧ Student.name st = UNKNOWN.
Proof.
  run_build late_name_sheets (js "7") b st Hb Hst.
  exists b, st. split; [done|]. split; [done|].
  destruct (buildStudentsMap_name late_name_sheets b (js "7") st Hb Hst)
    as (_ & e & rest & Hrows & ->).
  vm_compute in Hrows. by injection Hrows as <- _.
Defined.

(** X14: each of a student's totals is the sum, over all the data rows
    carrying the roll (two rows of one sheet counted twice), of the
    figures of the row: the sessions of its sheet's header, the sessions
    marked present, and the rest. *)
Theorem buildStudentsMap_totals sheets b (r : jsstring) st :
  buildStudentsMap sheets = Some b →
  Built.map b !! r = Some st →
  let rows := rows_of r (entries sheets) in
  Totals.classesHeld (Student.totals st)
  = foldr Z.add 0 ((λ e, classesHeld_of (e_header e)) <$> rows)
  ∧ Totals.present (Student.totals st)
    = foldr Z.add 0 ((λ e, (mark_row (e_header e) (e_row e)).2) <$> rows)
  ∧ Totals.absent (Student.totals st)
    = Totals.classesHeld (Student.totals st)
      - Totals.present (Student.totals st).
Proof.
  intros Hb Hst rows.
  destruct (buildStudentsMap_student _ _ _ _ Hb Hst) as (_ & st0 & Hst0 & ->).
  fold rows in Hst0. destruct rows as [|e0 rest] eqn:Hrows; [done|].
  injection Hst0 as <-. cbn [finish Student.totals Totals.classesHeld
                            Totals.present Totals.absent].
  clear. generalize (e0 :: rest). intros l. unfold rows_sum.
  assert (Hch : ∀ e, Subject.classesHeld (record_of e)
                     = classesHeld_of (e_header e)
                     ∧ Subject.present (record_of e)
                       = (mark_row (e_header e) (e_row e)).2
                     ∧ Subject.absent (record_of e)
                       = classesHeld_of (e_header e)
                         - (mark_row (e_header e) (e_row e)).2).
  { intros e. unfold record_of. by destruct (mark_row _ _). }
  induction l as [|e l (IH1 & IH2 & IH3)]; [done|].
  rewrite !fmap_cons. cbn [foldr]. cbn [compose] in *.
  destruct (Hch e) as (-> & -> & ->). rewrite IH1, IH2, IH3.
  repeat split; lia.
Qed.

Lemma buildStudentsMap_totals_witness :
  ∃ b st, buildStudentsMap duplicate_roll_sheets = Some b
          ∧ Built.map b !! js "7" = Some st
          ∧ Totals.classesHeld (Student.totals st) = 2
          ∧ Totals.present (Student.totals st) = 2.
Proof.
  run_build duplicate_roll_sheets (js "7") b st Hb Hst.
  exists b, st. split; [done|]. split; [done|].
  destruct (buildStudentsMap_totals duplicate_roll_sheets b (js "7") st Hb Hst)
    as (-> & -> & _).
  split; vm_compute; reflexivity.
Defined.





(** ** What a row is marked *)

Section MarkFacts.

Lemma toLowerCase_p s :
  toLowerCase s = js "p" ↔ s = js "p" ∨ s = js "P".
Proof.
  unfold toLowerCase. split.
  - destruct s as [|c [|d s]]; [done| |done]. simpl. unfold lower_char.
    destruct ((65 <=? c) && (c <=? 90))%N eqn:Hup.
    + intros [= H]. right. change (js "P") with [80%N]. f_equal. lia.
    + intros [= ->]. by left.
  - by intros [-> | ->].
Qed.

Lemma isPresent_iff row c :
  isPresent row c = true
  ↔ trim (cell row c) = js "p" ∨ trim (cell row c) = js "P".
Proof.
  unfold isPresent, jsstring_eqb. by rewrite bool_decide_eq_true, toLowerCase_p.
Qed.

Lemma mark_steps_marks row cs pbd tot :
  fold_left (mark_step row) cs (pbd, tot)
  = (pbd ++ ((λ c, if isPresent row c then 1 else 0) <$> cs),
     tot + foldr Z.add 0 ((λ c, if isPresent row c then 1 else 0) <$> cs)).
Proof.
  revert pbd tot. induction cs as [|c cs IH]; intros pbd tot.
  - simpl. by rewrite app_nil_r, Z.add_0_r.
  - cbn [fold_left]. unfold mark_step at 2.
    destruct (isPresent row c) eqn:Hc; rewrite IH, fmap_cons, Hc;
      cbn [foldr]; rewrite <- app_assoc; f_equal; lia.
Qed.

Lemma mark_row_marks header row :
  mark_row header row = (marks header row, foldr Z.add 0 (marks header row)).
Proof. unfold mark_row. by rewrite mark_steps_marks. Qed.

Lemma marks_sum_ones (l : list Z) :
  Forall (λ v, v = 0 ∨ v = 1) l →
  foldr Z.add 0 l = Z.of_nat (length (filter (λ v, v = 1) l))
  ∧ 0 ≤ foldr Z.add 0 l ≤ Z.of_nat (length l).
Proof.
  induction 1 as [|v l [-> | ->] _ [IH1 IH2]]; [done| |];
    rewrite filter_cons; simpl; lia.
Qed.

Lemma marks_binary header row :
  Forall (λ v, v = 0 ∨ v = 1) (marks header row).
Proof.
  unfold marks. apply Forall_fmap, Forall_forall. intros c _. simpl.
  destruct (isPresent row c); auto.
Qed.

Lemma record_of_eq e :
  record_of e
  = Subject.mk (classesHeld_of (e_header e))
               (foldr Z.add 0 (marks (e_header e) (e_row e)))
               (classesHeld_of (e_header e)
                - foldr Z.add 0 (marks (e_header e) (e_row e)))
               (marks (e_header e) (e_row e)).
Proof. unfold record_of. by rewrite mark_row_marks. Qed.

Lemma marks_length header row :
  Z.of_nat (length (marks header row)) = classesHeld_of header.
Proof.
  unfold marks, classesHeld_of, dateStart. rewrite length_fmap, length_seq. lia.
Qed.

Lemma record_of_bounds e :
  0 ≤ Subject.present (record_of e) ≤ Subject.classesHeld (record_of e)
  ∧ 0 ≤ Subject.absent (record_of e)
  ∧ Forall (λ v, v = 0 ∨ v = 1) (Subject.presentByDate (record_of e)).
Proof.
  rewrite record_of_eq. simpl.
  pose proof (marks_binary (e_header e) (e_row e)) as Hbin.
  destruct (marks_sum_ones _ Hbin) as [_ Hsum].
  rewrite marks_length in Hsum. repeat split; try done; lia.
Qed.

End MarkFacts.

(** X17: the record stored for a data row has one mark per session
    column of the header: the mark of column [3 + i] is 1 when the
    row's cell there, trimmed, is p or P, and 0 for any other content
    and for a cell the row does not have; [present] is the number of
    marks that are 1 and [absent] the number of the others. *)
Theorem record_of_marks (e : Entry) (i : nat) :
  Subject.presentByDate (record_of e) !! i
  = (if decide (i < length (e_header e) - 3)%nat
     then Some (if decide (trim (cell (e_row e) (3 + i)) = js "p"
                           ∨ trim (cell (e_row e) (3 + i)) = js "P")
                then 1 else 0)
     else None)
  ∧ Subject.present (record_of e)
    = Z.of_nat (length (filter (λ v, v = 1)
                               (Subject.presentByDate (record_of e))))
  ∧ Subject.absent (record_of e)
    = Z.of_nat (length (filter (λ v, v ≠ 1)
                               (Subject.presentByDate (record_of e)))).
Proof.
  rewrite record_of_eq. simpl. split; [|split].
  - unfold marks, dateStart. rewrite list_lookup_fmap.
    destruct (decide (i < length (e_header e) - 3)%nat) as [Hi|Hi].
    + rewrite lookup_seq_lt by done. simpl. f_equal.
      destruct (isPresent (e_row e) _) eqn:Hp.
      * apply isPresent_iff in Hp. by rewrite decide_True.
      * rewrite decide_False; [done|]. rewrite <- isPresent_iff. congruence.
    + by rewrite lookup_seq_ge by lia.
  - apply (marks_sum_ones _ (marks_binary (e_header e) (e_row e))).
  - rewrite <- (marks_length (e_header e) (e_row e)).
    pose proof (marks_binary (e_header e) (e_row e)) as Hbin. revert Hbin.
    generalize (marks (e_header e) (e_row e)). intros l Hbin.
    induction Hbin as [|v l [-> | ->] _ IH]; [done| |];
      rewrite filter_cons; simpl; lia.
Qed.

(** X18: for every student of the returned map the totals satisfy
    [0 <= present <= classesHeld] and [0 <= absent], and so does every
    record of its [subjects], whose marks are all 0 or 1. *)
Theorem buildStudentsMap_bounds sheets b (r : jsstring) st :
  buildStudentsMap sheets = Some b →
  Built.map b !! r = Some st →
  (0 ≤ Totals.present (Student.totals st)
     ≤ Totals.classesHeld (Student.totals st)
   ∧ 0 ≤ Totals.absent (Student.totals st))
  ∧ ∀ subj s, Student.subjects st !! subj = Some s →
      0 ≤ Subject.present s ≤ Subject.classesHeld s
      ∧ 0 ≤ Subject.absent s
      ∧ Forall (λ v, v = 0 ∨ v = 1) (Subject.presentByDate s).
Proof.
  intros Hb Hst. split.
  - destruct (buildStudentsMap_student _ _ _ _ Hb Hst) as (_ & st0 & Hst0 & ->).
    destruct (rows_of r (entries sheets)) as [|e0 rest] eqn:Hrows; [done|].
    injection Hst0 as <-. simpl. generalize (e0 :: rest). intros l.
    unfold rows_sum. induction l as [|e l IH]; [simpl; lia|].
    rewrite !fmap_cons. cbn [foldr compose].
    pose proof (record_of_bounds e). lia.
  - intros subj s.
    destruct (buildStudentsMap_student _ _ _ _ Hb Hst) as (_ & st0 & Hst0 & ->).
    destruct (rows_of r (entries sheets)) as [|e0 rest] eqn:Hrows; [done|].
    injection Hst0 as <-. simpl. rewrite subjects_of_lookup.
    destruct (last _) as [e|]; [|done]. intros [= <-].
    apply record_of_bounds.
Qed.

Lemma buildStudentsMap_bounds_witness :
  ∃ b st, buildStudentsMap three_of_four_sheets = Some b
          ∧ Built.map b !! js "7" = Some st
          ∧ 0 ≤ Totals.present (Student.totals st)
              ≤ Totals.classesHeld (Student.totals st).
Proof.
  run_build three_of_four_sheets (js "7") b st Hb Hst.
  exists b, st. split; [done|]. split; [done|].
  apply (buildStudentsMap_bounds three_of_four_sheets b (js "7") st Hb Hst).
Defined.

(** ** Blanks around cells *)

Section TrimCells.

Lemma cell_trimmed row i :
  trim (cell (trim <$> row) i) = trim (cell row i).
Proof.
  unfold cell. rewrite list_lookup_fmap.
  destruct (row !! i); simpl; [apply trim_idem | done].
Qed.

Lemma isPresent_trimmed row c : isPresent (trim <$> row) c = isPresent row c.
Proof. unfold isPresent. by rewrite cell_trimmed. Qed.

Lemma mark_row_trimmed header row :
  mark_row (trim <$> header) (trim <$> row) = mark_row header row.
Proof.
  unfold mark_row. rewrite length_fmap.
  generalize (seq dateStart (length header - dateStart)).
  generalize (@nil Z, 0). intros acc cs. revert acc.
  induction cs as [|c cs IH]; intros acc; [done|]. simpl.
  rewrite IH. f_equal. unfold mark_step. by rewrite isPresent_trimmed.
Qed.

Lemma process_row_trimmed subj header classesHeld m row :
  process_row subj (trim <$> header) classesHeld m (trim <$> row)
  = process_row subj header classesHeld m row.
Proof.
  unfold process_row. by rewrite !cell_trimmed, mark_row_trimmed.
Qed.

Lemma process_rows_trimmed subj header classesHeld m data :
  process_rows subj (trim <$> header) classesHeld m
               ((λ row : list jsstring, trim <$> row) <$> data)
  = process_rows subj header classesHeld m data.
Proof.
  revert m. induction data as [|row data IH]; intros m; [done|].
  rewrite fmap_cons. simpl. rewrite process_row_trimmed.
  destruct (process_row subj header classesHeld m row); simpl; [apply IH|done].
Qed.

Lemma process_sheet_trimmed acc sheet :
  process_sheet acc (trim_cells sheet) = process_sheet acc sheet.
Proof.
  unfold process_sheet, trim_cells. simpl.
  destruct (Sheet.rows sheet) as [|header data]; [done|].
  rewrite fmap_cons, length_fmap. by rewrite process_rows_trimmed.
Qed.

End TrimCells.

(** X19: only the trimmed content of a cell counts: trimming every cell
    of every sheet beforehand changes nothing in the result, map, index
    and failure alike. *)
Theorem buildStudentsMap_trim_cells (sheets : list Sheet.t) :
  buildStudentsMap (trim_cells <$> sheets) = buildStudentsMap sheets.
Proof.
  unfold buildStudentsMap. f_equal. generalize (Built.mk ∅ ∅).
  induction sheets as [|sheet sheets IH]; intros acc; [done|].
  rewrite fmap_cons. simpl. rewrite process_sheet_trimmed.
  destruct (process_sheet acc sheet); simpl; [apply IH | done].
Qed.

(** * Properties of the summary figures *)

Section SummaryFacts.

Lemma map_sum_insert_fresh (f : Student.t → Z)
      (m : gmap jsstring Student.t) (k : jsstring) (v : Student.t) :
  m !! k = None → map_sum f (<[k:=v]> m) = f v + map_sum f m.
Proof.
  intros H. unfold map_sum.
  by rewrite (foldr_add_perm _ _ _ (map_to_list_insert _ _ _ H)).
Qed.

Lemma map_sum_insert_old (f : Student.t → Z)
      (m : gmap jsstring Student.t) (k : jsstring) (v old : Student.t) :
  m !! k = Some old → map_sum f (<[k:=v]> m) = f v + map_sum f m - f old.
Proof.
  intros H. rewrite <- insert_delete_eq.
  rewrite map_sum_insert_fresh by apply lookup_delete_eq.
  unfold map_sum at 2.
  rewrite <- (foldr_add_perm _ _ _ (map_to_list_delete _ _ _ H)).
  rewrite fmap_cons. cbn [foldr]. unfold map_sum. simpl. lia.
Qed.

Lemma map_sum_finish (f : Student.t → Z) (m : gmap jsstring Student.t) :
  (∀ st, f (finish st) = f st) → map_sum f (finish <$> m) = map_sum f m.
Proof.
  intros Hf. unfold map_sum. rewrite map_to_list_fmap, <- list_fmap_compose.
  f_equal. apply list_fmap_ext. intros i [k st] _. simpl. apply Hf.
Qed.

Lemma or_zero_id x : Summary.or_zero x = x.
Proof. unfold Summary.or_zero. destruct (Z.eqb_spec x 0); lia. Qed.

Lemma total_map_sum (g : Totals.t → Z) (m : gmap jsstring Student.t) :
  Summary.total g (snd <$> map_to_list m) = map_sum (g ∘ Student.totals) m.
Proof.
  unfold Summary.total, map_sum.
  generalize (map_to_list m). intros l.
  assert (H : ∀ a, fold_left (λ acc s, acc + Summary.or_zero (g (Student.totals s)))
                             (snd <$> l) a
                   = a + foldr Z.add 0 ((g ∘ Student.totals ∘ snd) <$> l)).
  { induction l as [|[k st] l IH]; intros a; [simpl; lia|].
    rewrite !fmap_cons. cbn [fold_left foldr]. rewrite IH, or_zero_id.
    simpl. lia. }
  rewrite H. lia.
Qed.

Lemma resolve_totals m name r st :
  resolve m name r = Some st →
  Student.totals st
  = match m !! r with
    | Some st0 => Student.totals st0
    | None => Totals.mk 0 0 0 None None
    end.
Proof.
  unfold resolve. destruct (m !! r) as [st0|].
  - destruct (Student.name st0), name; by intros [= <-].
  - case_bool_decide; [done|]. by intros [= <-].
Qed.

(** A figure that every stored row adds to grows, over the whole map, by
    what the rows carrying a roll add. *)
Lemma run_entries_sum (f : Totals.t → Z) (g : Subject.t → Z) es :
  f (Totals.mk 0 0 0 None None) = 0 →
  (∀ st subj rec,
     f (Student.totals (record_subject st subj rec))
     = f (Student.totals st) + g rec) →
  ∀ m m', run_entries m es = Some m' →
  map_sum (f ∘ Student.totals) m'
  = map_sum (f ∘ Student.totals) m
    + foldr Z.add 0 (g ∘ record_of <$> filter (λ e, roll_of e ≠ []) es).
Proof.
  intros Hzero Hadd. induction es as [|e es IH]; intros m m'.
  - intros [= <-]. simpl. lia.
  - simpl. destruct (apply_entry m e) as [m1|] eqn:He; [|done]. simpl.
    intros Hrun. rewrite (IH _ _ Hrun), filter_cons.
    destruct (decide (roll_of e ≠ [])) as [Hroll|Hroll].
    + rewrite apply_entry_roll in He by done.
      destruct (resolve m (name_of e) (roll_of e)) as [st|] eqn:Hres; [|done].
      injection He as <-. apply resolve_totals in Hres.
      rewrite fmap_cons. cbn [foldr].
      destruct (m !! roll_of e) as [st0|] eqn:Hst0.
      * rewrite (map_sum_insert_old _ _ _ _ _ Hst0). cbn [compose].
        rewrite Hadd, Hres. lia.
      * rewrite (map_sum_insert_fresh _ _ _ _ Hst0). cbn [compose].
        rewrite Hadd, Hres, Hzero. lia.
    + rewrite apply_entry_empty_roll in He
        by (by destruct (decide (roll_of e = [])) as [|]; [|destruct Hroll]).
      by injection He as <-.
Qed.

Lemma buildStudentsMap_sum (f : Totals.t → Z) (g : Subject.t → Z) sheets b :
  f (Totals.mk 0 0 0 None None) = 0 →
  (∀ st subj rec,
     f (Student.totals (record_subject st subj rec))
     = f (Student.totals st) + g rec) →
  (∀ st, f (Student.totals (finish st)) = f (Student.totals st)) →
  buildStudentsMap sheets = Some b →
  Summary.total f (snd <$> map_to_list (Built.map b))
  = foldr Z.add 0 (g ∘ record_of <$> valid_entries sheets).
Proof.
  intros Hzero Hadd Hfin Hb.
  pose proof (buildStudentsMap_entries sheets) as He.
  rewrite Hb in He. simpl in He.
  destruct (run_entries ∅ (entries sheets)) as [m|] eqn:Hrun; [|done].
  injection He as ->. rewrite total_map_sum, map_sum_finish by done.
  rewrite (run_entries_sum f g _ Hzero Hadd _ _ Hrun).
  unfold map_sum. rewrite map_to_list_empty. simpl. done.
Qed.

End SummaryFacts.

(** X20: the student count shown is the number of keys of the map, and
    it is the sum of the three today counters: the students the card of
    today's present and absent leaves out are the unknown ones. *)
Theorem summarize_students (b : Built.t) :
  let s := Summary.summarize b in
  let t := Summary.todayCounts s in
  Summary.totalStudents s = Z.of_nat (size (Built.map b))
  ∧ Summary.totalStudents s = present t + absent t + unknown t
  ∧ 0 ≤ unknown t
  ∧ present t + absent t ≤ Summary.totalStudents s.
Proof.
  simpl. unfold computeTodayCounts.
  pose proof (fold_count_total (snd <$> map_to_list (Built.map b))
                               (mkCounts 0 0 0)) as Htot.
  rewrite fold_count in *. simpl in *.
  rewrite length_fmap, length_map_to_list in *.
  unfold tally in *. repeat split; lia.
Qed.

(** X21: the figure Total Classes Held is not a number of sessions: it
    adds, for every data row carrying a roll, the sessions of the row's
    header, so a session counts once for each student row of its sheet.
    The present marks added the same way never exceed it. *)
Theorem summarize_totalClassesHeld sheets b :
  buildStudentsMap sheets = Some b →
  Summary.totalClassesHeld (Summary.summarize b)
  = foldr Z.add 0 ((λ e, classesHeld_of (e_header e)) <$> valid_entries sheets)
  ∧ 0 ≤ Summary.total Totals.present (snd <$> map_to_list (Built.map b))
      ≤ Summary.totalClassesHeld (Summary.summarize b).
Proof.
  intros Hb. simpl.
  rewrite (buildStudentsMap_sum Totals.classesHeld Subject.classesHeld sheets b)
    by done.
  rewrite (buildStudentsMap_sum Totals.present Subject.present sheets b)
    by done.
  generalize (valid_entries sheets). intros l. split.
  - f_equal. apply list_fmap_ext. intros i e _. simpl.
    unfold record_of. by destruct (mark_row _ _).
  - induction l as [|e l IH]; [done|]. rewrite !fmap_cons. cbn [foldr compose].
    pose proof (record_of_bounds e). lia.
Qed.

Lemma summarize_totalClassesHeld_witness :
  ∃ b, buildStudentsMap duplicate_roll_sheets = Some b
       ∧ Summary.totalClassesHeld (Summary.summarize b) = 2.
Proof.
  destruct (buildStudentsMap duplicate_roll_sheets) as [b|] eqn:Hb;
    [|by vm_compute in Hb].
  exists b. split; [done|].
  destruct (summarize_totalClassesHeld duplicate_roll_sheets b Hb) as [-> _].
  vm_compute. reflexivity.
Defined.

(** * Properties of the fetch and of the refresh cycle *)

Section FetchFacts.

Variable fetchCSV : jsstring → option jsstring.

Lemma fetchAllSheets_Some sheets :
  fetchAllSheets fetchCSV = Some sheets
  ↔ Forall2 (λ (s : jsstring * jsstring) sheet,
               ∃ txt, fetchCSV s.2 = Some txt
                      ∧ sheet = Sheet.mk s.1 (parseCSV txt))
            CSV_URLS sheets.
Proof.
  unfold fetchAllSheets. rewrite mapM_Some.
  split; intros H; (eapply Forall2_impl; [exact H|]); intros s sheet; simpl.
  - destruct (fetchCSV s.2) as [txt|] eqn:Htxt; simpl; [|by intros ?].
    intros [= <-]. by exists txt.
  - intros (txt & -> & ->). done.
Qed.

Lemma fetchAllSheets_None :
  fetchAllSheets fetchCSV = None
  ↔ ∃ s, s ∈ CSV_URLS ∧ fetchCSV s.2 = None.
Proof.
  unfold fetchAllSheets. rewrite mapM_None, Exists_exists.
  split; intros (s & Hs & H); exists s; split; try done.
  - by destruct (fetchCSV s.2).
  - by rewrite H.
Qed.



(** X22: the fetch of the sheets is all or nothing: it fails exactly
    when the fetch of one address fails; otherwise it yields one sheet
    for each entry of [CSV_URLS], in that order, under the entry's
    subject, with the parsed text of its address, and no sheet is
    without rows. *)
Theorem fetchAllSheets_all_or_nothing :
  (fetchAllSheets fetchCSV = None
   ↔ ∃ s, s ∈ CSV_URLS ∧ fetchCSV s.2 = None)
  ∧ ∀ sheets, fetchAllSheets fetchCSV = Some sheets →
      Sheet.subject <$> sheets = fst <$> CSV_URLS
      ∧ Forall2 (λ (s : jsstring * jsstring) sheet,
                   ∃ txt, fetchCSV s.2 = Some txt
                          ∧ Sheet.rows sheet = parseCSV txt)
                CSV_URLS sheets
      ∧ Forall (λ sheet, Sheet.rows sheet ≠ []) sheets.
Proof.
  split; [apply fetchAllSheets_None|].
  intros sheets H%fetchAllSheets_Some.
  induction H as [|s sheet l k (txt & Htxt & ->) _ (IH1 & IH2 & IH3)];
    [done|].
  split; [|split].
  - by rewrite !fmap_cons, IH1.
  - constructor; [by exists txt | done].
  - constructor; [|done]. simpl. intros Hnil.
    apply (f_equal length) in Hnil.
    pose proof (split_length LF (remove_cr txt)) as Hlen.
    unfold parseCSV in Hnil. rewrite length_map, Hlen in Hnil. done.
Qed.


End FetchFacts.

(** * The today detector on the map built from the sheets *)

Section TodayOfSheets.



End TodayOfSheets.



(** * The threshold in exact arithmetic *)

Section ThresholdFacts.

Lemma digits2_pos_bounds p :
  2 ^ (Z.pos (digits2_pos p) - 1) ≤ Z.pos p < 2 ^ Z.pos (digits2_pos p).
Proof.
  induction p as [p IH|p IH|]; cbn [digits2_pos].
  - rewrite Pos2Z.inj_succ. replace (Z.succ (Z.pos (digits2_pos p)) - 1) with (Z.succ (Z.pos (digits2_pos p) - 1)) by lia.
    rewrite !Z.pow_succ_r by lia. lia.
  - rewrite Pos2Z.inj_succ. replace (Z.succ (Z.pos (digits2_pos p)) - 1) with (Z.succ (Z.pos (digits2_pos p) - 1)) by lia.
    rewrite !Z.pow_succ_r by lia. lia.
  - simpl. lia.
Qed.

Lemma Zdigits2_eq m d :
  2 ^ (d - 1) ≤ m < 2 ^ d → 0 < d → Zdigits2 m = d.
Proof.
  intros Hm Hd. assert (0 < m) by (pose proof (Z.pow_pos_nonneg 2 (d - 1)); lia).
  destruct m as [|p|p]; try lia. simpl.
  pose proof (digits2_pos_bounds p) as Hp.
  destruct (Z.lt_trichotomy (Z.pos (digits2_pos p)) d) as [Hlt|[Heq|Hgt]]; [|done|].
  - assert (2 ^ Z.pos (digits2_pos p) ≤ 2 ^ (d - 1)) by (apply Z.pow_le_mono_r; lia). lia.
  - assert (2 ^ d ≤ 2 ^ (Z.pos (digits2_pos p) - 1)) by (apply Z.pow_le_mono_r; lia). lia.
Qed.

Lemma iter_xO m k : Z.pos (Pos.iter xO m k) = Z.pos m * 2 ^ Z.pos k.
Proof.
  induction k as [|k IH] using Pos.peano_ind.
  - simpl. lia.
  - rewrite Pos.iter_succ, Pos2Z.inj_xO, IH, Pos2Z.inj_succ, Z.pow_succ_r by lia. lia.
Qed.

Lemma loc_of_record_of_loc m l : loc_of_shr_record (shr_record_of_loc m l) = l.
Proof. by destruct l as [|[]]. Qed.

Lemma shr_1_spec m r s :
  0 ≤ m →
  shr_1 (Build_shr_record m r s) = Build_shr_record (m / 2) (Z.odd m) (r || s).
Proof.
  intros Hm. destruct m as [|[p|p|]|p]; try lia; cbn [shr_1].
  - done.
  - f_equal. rewrite Pos2Z.inj_xI. apply (Z.div_unique _ _ _ 1); lia.
  - f_equal. rewrite Pos2Z.inj_xO. apply (Z.div_unique _ _ _ 0); lia.
  - done.
Qed.

Lemma fexp_eq e : -1074 ≤ e - 53 → fexp JsNumber.prec JsNumber.emax e = e - 53.
Proof. unfold fexp, SpecFloat.emin, JsNumber.prec, JsNumber.emax. lia. Qed.

Lemma shr_fexp_53 m e l :
  2 ^ 52 ≤ m < 2 ^ 53 → -1074 ≤ e →
  shr_fexp JsNumber.prec JsNumber.emax m e l = (shr_record_of_loc m l, e).
Proof.
  intros Hm He. unfold shr_fexp.
  rewrite (Zdigits2_eq m 53) by (done || lia).
  rewrite fexp_eq by lia.
  replace (53 + e - 53 - e) with 0 by lia. done.
Qed.

Lemma shr_fexp_54 m e l :
  2 ^ 53 ≤ m < 2 ^ 54 → -1074 ≤ e →
  shr_fexp JsNumber.prec JsNumber.emax m e l = (shr_1 (shr_record_of_loc m l), e + 1).
Proof.
  intros Hm He. unfold shr_fexp.
  rewrite (Zdigits2_eq m 54) by (done || lia).
  rewrite fexp_eq by lia.
  replace (54 + e - 53 - e) with 1 by lia. done.
Qed.

(** The second half of rounding: a mantissa of 53 bits is kept, the
    mantissa 2^53 becomes 2^52 one exponent up. *)
Lemma round_aux_tail s m e :
  2 ^ 52 ≤ m ≤ 2 ^ 53 → -1074 ≤ e ≤ 970 →
  (let '(mrs, e') := shr_fexp JsNumber.prec JsNumber.emax m e loc_Exact in
   match shr_m mrs with
   | Z0 => S754_zero s
   | Zpos m' => if e' <=? JsNumber.emax - JsNumber.prec then S754_finite s m' e' else S754_infinity s
   | Zneg _ => S754_nan
   end)
  = if m <? 2 ^ 53 then S754_finite s (Z.to_pos m) e
    else S754_finite s (Z.to_pos (2 ^ 52)) (e + 1).
Proof.
  intros Hm He. destruct (Z.ltb_spec m (2 ^ 53)) as [Hlt|Hge].
  - rewrite shr_fexp_53 by lia. cbn [shr_record_of_loc shr_m].
    destruct m as [|p|p]; try lia.
    assert (H : (e <=? JsNumber.emax - JsNumber.prec) = true) by (apply Z.leb_le; unfold JsNumber.emax, JsNumber.prec; lia).
    by rewrite H.
  - assert (m = 2 ^ 53) as -> by lia.
    rewrite shr_fexp_54 by lia.
    assert (H : (e + 1 <=? JsNumber.emax - JsNumber.prec) = true) by (apply Z.leb_le; unfold JsNumber.emax, JsNumber.prec; lia).
    cbn. by rewrite H.
Qed.

Lemma of_Z_exact n :
  0 < n < 2 ^ 53 →
  ∃ m k, JsNumber.of_Z n = S754_finite false m (- k) ∧ 0 ≤ k ≤ 52
         ∧ Z.pos m = n * 2 ^ k ∧ 2 ^ 52 ≤ Z.pos m < 2 ^ 53.
Proof.
  intros Hn. destruct n as [|p|p]; try lia.
  unfold JsNumber.of_Z, binary_normalize, binary_round.
  pose proof (digits2_pos_bounds p) as Hd.
  set (d := Z.pos (digits2_pos p)) in *.
  assert (Hd53 : 1 ≤ d ≤ 53).
  { split; [unfold d; lia|].
    destruct (Z.le_gt_cases d 53) as [|Hgt]; [done|].
    assert (2 ^ 53 ≤ 2 ^ (d - 1)) by (apply Z.pow_le_mono_r; lia). lia. }
  rewrite fexp_eq by lia. unfold shl_align.
  destruct (d + 0 - 53 - 0) as [|k|k] eqn:Hk; try lia.
  - assert (d = 53) as Hd' by lia. rewrite Hd' in Hd.
    exists p, 0. unfold binary_round_aux.
    rewrite shr_fexp_53 by (simpl in *; lia). cbn [loc_of_shr_record shr_record_of_loc round_nearest_even shr_m].
    rewrite (round_aux_tail false (Z.pos p) 0) by (simpl in *; lia).
    destruct (Z.ltb_spec (Z.pos p) (2 ^ 53)); [|simpl in *; lia].
    simpl in *. repeat split; try lia. 
  - assert (Hk' : Z.pos k = 53 - d) by lia.
    pose proof (iter_xO p k) as Hm. rewrite Hk' in Hm.
    assert (Hpow : 2 ^ 53 = 2 ^ (d - 1) * 2 * 2 ^ (53 - d)).
    { transitivity (2 ^ ((d - 1) + 1 + (53 - d))); [f_equal; lia|].
      rewrite !Z.pow_add_r by lia. by rewrite Z.pow_1_r. }
    assert (Hpow' : 2 ^ d = 2 ^ (d - 1) * 2).
    { transitivity (2 ^ ((d - 1) + 1)); [f_equal; lia|].
      rewrite !Z.pow_add_r by lia. by rewrite Z.pow_1_r. }
    assert (Hpos : 0 < 2 ^ (53 - d)) by (apply Z.pow_pos_nonneg; lia).
    assert (Hrange : 2 ^ 52 ≤ Z.pos (Pos.iter xO p k) < 2 ^ 53).
    { rewrite Hm. change (2 ^ 52) with (2 ^ 53 / 2). rewrite Hpow.
      replace (2 ^ (d - 1) * 2 * 2 ^ (53 - d)) with ((2 ^ (d - 1) * 2 ^ (53 - d)) * 2) by lia.
      rewrite Z.div_mul by lia. nia. }
    exists (Pos.iter xO p k), (53 - d). unfold binary_round_aux.
    rewrite shr_fexp_53 by lia.
    cbn [loc_of_shr_record shr_record_of_loc round_nearest_even shr_m].
    rewrite (round_aux_tail false _ _) by lia.
    destruct (Z.ltb_spec (Z.pos (Pos.iter xO p k)) (2 ^ 53)); [|lia].
    simpl Z.to_pos. replace (d + 0 - 53) with (- (53 - d)) by lia.
    repeat split; try lia.
Qed.

Lemma binary_round_aux_unfold s m e l :
  binary_round_aux JsNumber.prec JsNumber.emax s m e l
  = finish_round s
      (shr_fexp JsNumber.prec JsNumber.emax
         (round_nearest_even (shr_m (shr_fexp JsNumber.prec JsNumber.emax m e l).1)
                             (loc_of_shr_record (shr_fexp JsNumber.prec JsNumber.emax m e l).1))
         (shr_fexp JsNumber.prec JsNumber.emax m e l).2 loc_Exact).
Proof.
  unfold binary_round_aux, finish_round.
  destruct (shr_fexp JsNumber.prec JsNumber.emax m e l) as [mrs' e']. simpl.
  by destruct (shr_fexp JsNumber.prec JsNumber.emax _ e' loc_Exact) as [mrs'' e''].
Qed.

Lemma finish_round_tail m e :
  2 ^ 52 ≤ m ≤ 2 ^ 53 → -1074 ≤ e ≤ 970 →
  finish_round false (shr_fexp JsNumber.prec JsNumber.emax m e loc_Exact) = rounded m e.
Proof.
  intros Hm He. unfold rounded, finish_round.
  destruct (Z.ltb_spec m (2 ^ 53)) as [Hlt|Hge].
  - rewrite shr_fexp_53 by lia. cbn [shr_record_of_loc shr_m fst snd].
    destruct m as [|p|p]; try lia.
    assert (H : (e <=? JsNumber.emax - JsNumber.prec) = true) by (apply Z.leb_le; unfold JsNumber.emax, JsNumber.prec; lia).
    by rewrite H.
  - assert (m = 2 ^ 53) as -> by lia.
    rewrite shr_fexp_54 by lia.
    assert (H : (e + 1 <=? JsNumber.emax - JsNumber.prec) = true) by (apply Z.leb_le; unfold JsNumber.emax, JsNumber.prec; lia).
    cbn. by rewrite H.
Qed.

Lemma shr_m_record_of_loc m l : shr_m (shr_record_of_loc m l) = m.
Proof. by destruct l as [|[]]. Qed.

Lemma round_aux_53 q e l :
  2 ^ 52 ≤ q < 2 ^ 53 → -1074 ≤ e ≤ 970 →
  ∃ m1, binary_round_aux JsNumber.prec JsNumber.emax false q e l = rounded m1 e
        ∧ (m1 = q ∨ (m1 = q + 1
                     ∧ (l = loc_Inexact Eq ∨ l = loc_Inexact Gt))).
Proof.
  intros Hq He. rewrite binary_round_aux_unfold, (shr_fexp_53 q e l) by lia.
  cbn [fst snd]. rewrite loc_of_record_of_loc, shr_m_record_of_loc.
  exists (round_nearest_even q l).
  assert (Hr : round_nearest_even q l = q
               ∨ (round_nearest_even q l = q + 1
                  ∧ (l = loc_Inexact Eq ∨ l = loc_Inexact Gt))).
  { destruct l as [|[]]; cbn [round_nearest_even]; auto.
    destruct (Z.even q); auto. }
  split; [|done]. apply finish_round_tail; [|done].
  destruct Hr as [-> | [-> _]]; lia.
Qed.

Lemma round_aux_54 q e l :
  2 ^ 53 ≤ q < 2 ^ 54 → -1074 ≤ e ≤ 969 →
  ∃ m1, binary_round_aux JsNumber.prec JsNumber.emax false q e l = rounded m1 (e + 1)
        ∧ (m1 = q / 2 ∨ (m1 = q / 2 + 1 ∧ Z.odd q = true)).
Proof.
  intros Hq He. rewrite binary_round_aux_unfold, (shr_fexp_54 q e l) by lia.
  cbn [fst snd].
  assert (Hrec : ∃ r s, shr_record_of_loc q l = Build_shr_record q r s)
    by (destruct l as [|[]]; simpl; eauto).
  destruct Hrec as (r & s & ->). rewrite shr_1_spec by lia.
  cbn [shr_m].
  set (m1 := round_nearest_even _ _). exists m1.
  assert (Hdiv : 2 ^ 52 ≤ q / 2 < 2 ^ 53).
  { split; [apply Z.div_le_lower_bound | apply Z.div_lt_upper_bound]; lia. }
  assert (Hr : m1 = q / 2 ∨ (m1 = q / 2 + 1 ∧ Z.odd q = true)).
  { unfold m1. destruct (Z.odd q), (r || s); cbn; auto.
    destruct (Z.even (q / 2)); auto. }
  split; [|done]. apply finish_round_tail; [|lia].
  destruct Hr as [-> | [-> _]]; lia.
Qed.

Lemma new_location_up m2 r :
  0 < m2 → 0 ≤ r < m2 →
  new_location m2 r = loc_Inexact Eq ∨ new_location m2 r = loc_Inexact Gt →
  0 < r ∧ m2 ≤ 2 * r.
Proof.
  intros Hm Hr. unfold new_location, new_location_even, new_location_odd.
  destruct (Z.even m2); destruct (Z.eqb_spec r 0) as [->|Hne].
  - by intros [|].
  - destruct (Z.compare_spec (2 * r) m2); intros [?|?]; try done; lia.
  - by intros [|].
  - destruct (Z.compare_spec (2 * r + 1) m2); intros [?|?]; try done; lia.
Qed.

Lemma div_canonical m1 e1 m2 e2 :
  2 ^ 52 ≤ Z.pos m1 < 2 ^ 53 → 2 ^ 52 ≤ Z.pos m2 < 2 ^ 53 →
  -52 ≤ e1 ≤ 0 → -52 ≤ e2 ≤ 0 →
  JsNumber.div (S754_finite false m1 e1) (S754_finite false m2 e2)
  = binary_round_aux JsNumber.prec JsNumber.emax false
      (Z.pos m1 * 2 ^ 53 / Z.pos m2) (e1 - e2 - 53)
      (new_location (Z.pos m2) ((Z.pos m1 * 2 ^ 53) mod Z.pos m2)).
Proof.
  intros H1 H2 He1 He2. unfold JsNumber.div, SFdiv, SFdiv_core_binary.
  rewrite (Zdigits2_eq (Z.pos m1) 53), (Zdigits2_eq (Z.pos m2) 53) by (done || lia).
  rewrite fexp_eq by lia.
  replace (Z.min (53 + e1 - (53 + e2) - 53) (e1 - e2)) with (e1 - e2 - 53) by lia.
  replace (e1 - e2 - (e1 - e2 - 53)) with 53 by lia.
  rewrite Z.shiftl_mul_pow2 by lia.
  unfold Z.div, Z.modulo.
  by destruct (Z.div_eucl (Z.pos m1 * 2 ^ 53) (Z.pos m2)).
Qed.

Lemma geb_finite (m : positive) e :
  JsNumber.geb (S754_finite false m e) JsNumber.threshold
  = (-53 <? e) || ((e =? -53) && (6755399441055744 <=? Z.pos m)).
Proof.
  unfold JsNumber.geb, JsNumber.threshold. cbn [SFcompare].
  destruct (Z.compare_spec e (-53)) as [->|He|He].
  - rewrite Z.ltb_irrefl, Z.eqb_refl. cbn [orb andb].
    rewrite Pos.compare_cont_spec. unfold Pos.switch_Eq.
    rewrite Pos2Z.inj_compare.
    destruct (Z.compare_spec (Z.pos m) (Z.pos 6755399441055744));
      destruct (Z.leb_spec 6755399441055744 (Z.pos m));
      try reflexivity; lia.
  - destruct (Z.ltb_spec (-53) e), (Z.eqb_spec e (-53)); try reflexivity; lia.
  - destruct (Z.ltb_spec (-53) e); try reflexivity; lia.
Qed.

Lemma pow2_52 : 2 ^ 52 = 4503599627370496. Proof. reflexivity. Qed.
Lemma pow2_53 : 2 ^ 53 = 9007199254740992. Proof. reflexivity. Qed.
Lemma pow2_54 : 2 ^ 54 = 18014398509481984. Proof. reflexivity. Qed.

Lemma geb_rounded m e :
  2 ^ 52 ≤ m ≤ 2 ^ 53 →
  JsNumber.geb (rounded m e) JsNumber.threshold
  = if m <? 2 ^ 53
    then (-53 <? e) || ((e =? -53) && (6755399441055744 <=? m))
    else (-53 <? e + 1).
Proof.
  intros Hm. unfold rounded.
  destruct (Z.ltb_spec m (2 ^ 53)) as [Hlt|Hge]; rewrite geb_finite.
  - rewrite pow2_52 in Hm. by rewrite Z2Pos.id by lia.
  - rewrite pow2_52. cbn [Z.to_pos].
    destruct (Z.leb_spec 6755399441055744 4503599627370496); [lia|].
    by rewrite andb_false_r, orb_false_r.
Qed.

Lemma pow2_split a b : 0 ≤ a ≤ b → 2 ^ b = 2 ^ (b - a) * 2 ^ a.
Proof.
  intros H. rewrite <- Z.pow_add_r by lia. f_equal. lia.
Qed.

Lemma pow2_ge_2 n : 1 ≤ n → 2 ≤ 2 ^ n.
Proof.
  intros H. change 2 with (2 ^ 1) at 1. apply Z.pow_le_mono_r; lia.
Qed.

Lemma pow2_ge_4 n : 2 ≤ n → 4 ≤ 2 ^ n.
Proof.
  intros H. change 4 with (2 ^ 2) at 1. apply Z.pow_le_mono_r; lia.
Qed.

Lemma ratio_high K1 K2 p c :
  0 < K1 → 2 * K1 ≤ K2 → 0 < p → 0 < c →
  c * K2 < 9007199254740992 → 4503599627370496 ≤ p * K1 → 3 * c ≤ 4 * p.
Proof.
  intros HK1 HK2 Hp Hc HC HP.
  destruct (Z.le_gt_cases (3 * c) (4 * p)) as [|Hgt]; [done|].
  assert ((p + 1) * K2 ≤ c * K2) by nia.
  assert ((p + 1) * (2 * K1) ≤ (p + 1) * K2) by nia. lia.
Qed.

Lemma ratio_low K1 K2 p c :
  0 < K2 → 4 * K2 ≤ K1 → 0 < p → 0 < c →
  p * K1 < 9007199254740992 → 4503599627370496 ≤ c * K2 → 4 * p < 3 * c.
Proof.
  intros HK2 HK1 Hp Hc HP HC.
  assert (p * (4 * K2) ≤ p * K1) by nia.
  destruct (Z.le_gt_cases (2 * c) (4 * p)) as [Hle|]; [|lia].
  assert (2 * c * K2 ≤ 4 * p * K2) by nia. lia.
Qed.

Ltac bool_cases :=
  repeat match goal with
  | |- context [Z.ltb ?a ?b] => destruct (Z.ltb_spec a b)
  | |- context [Z.leb ?a ?b] => destruct (Z.leb_spec a b)
  | |- context [Z.eqb ?a ?b] => destruct (Z.eqb_spec a b)
  end;
  cbn [orb andb]; try reflexivity; exfalso.

(** The four positions of the two exponents. *)
Lemma exponent_cases k1 k2 :
  0 ≤ k1 → 0 ≤ k2 →
  (1 ≤ k2 - k1 ∧ 2 * 2 ^ k1 ≤ 2 ^ k2)
  ∨ (k2 = k1 ∧ 2 ^ k1 = 2 ^ k2)
  ∨ (k2 = k1 - 1 ∧ 2 ^ k1 = 2 * 2 ^ k2)
  ∨ (k2 - k1 ≤ -2 ∧ 4 * 2 ^ k2 ≤ 2 ^ k1).
Proof.
  intros H1 H2.
  pose proof (Z.pow_pos_nonneg 2 k1). pose proof (Z.pow_pos_nonneg 2 k2).
  destruct (Z.lt_trichotomy k2 k1) as [Hlt|[->|Hgt]]; [|by right; left|].
  - destruct (Z.eq_dec k2 (k1 - 1)) as [->|Hne].
    + right. right. left. split; [done|].
      rewrite (pow2_split (k1 - 1) k1) by lia.
      replace (k1 - (k1 - 1)) with 1 by lia. by rewrite Z.pow_1_r.
    + right. right. right. split; [lia|].
      rewrite (pow2_split k2 k1) by lia.
      pose proof (pow2_ge_4 (k1 - k2)). nia.
  - left. split; [lia|]. rewrite (pow2_split k1 k2) by lia.
    pose proof (pow2_ge_2 (k2 - k1)). nia.
Qed.


Lemma quotient_bounds P C q r :
  4503599627370496 ≤ P < 9007199254740992 →
  4503599627370496 ≤ C < 9007199254740992 →
  P * 9007199254740992 = C * q + r → 0 ≤ r < C →
  4503599627370496 ≤ q < 18014398509481984
  ∧ (q < 9007199254740992 ↔ P < C).
Proof.
  intros HP HC Hdm Hr.
  assert (H1 : 4503599627370496 ≤ q).
  { destruct (Z.le_gt_cases 4503599627370496 q) as [|Hlt]; [done|].
    assert (C * (q + 1) ≤ C * 4503599627370496)
      by (apply Z.mul_le_mono_nonneg_l; lia). lia. }
  assert (H2 : q < 18014398509481984).
  { destruct (Z.lt_ge_cases q 18014398509481984) as [|Hge]; [done|].
    assert (C * 18014398509481984 ≤ C * q)
      by (apply Z.mul_le_mono_nonneg_l; lia). lia. }
  split; [done|]. split.
  - intros Hq. destruct (Z.lt_ge_cases P C) as [|Hge]; [done|].
    assert (C * (q + 1) ≤ C * 9007199254740992)
      by (apply Z.mul_le_mono_nonneg_l; lia). lia.
  - intros HPC. destruct (Z.lt_ge_cases q 9007199254740992) as [|Hge]; [done|].
    assert (C * 9007199254740992 ≤ C * q)
      by (apply Z.mul_le_mono_nonneg_l; lia). lia.
Qed.

(** Whether the quotient reaches [t] is decided by the exact ratio. *)
Lemma quotient_ge C q r t N :
  0 < C → 0 ≤ r < C → N = C * q + r → (t ≤ q ↔ t * C ≤ N).
Proof.
  intros HC Hr ->. split; intros H.
  - assert (C * t ≤ C * q) by (apply Z.mul_le_mono_nonneg_l; lia). lia.
  - destruct (Z.le_gt_cases t q) as [|Hlt]; [done|].
    assert (C * (q + 1) ≤ C * t) by (apply Z.mul_le_mono_nonneg_l; lia). lia.
Qed.

Lemma scale_le K a b : 0 < K → (a * K ≤ b * K ↔ a ≤ b).
Proof. intros HK. split; intros H; nia. Qed.

(** With equal exponents the mantissa of the rounded quotient reaches
    that of 0.75 exactly when the exact ratio does: below [2^52] the
    denominator is too small for a ratio under 3/4 to round up to it. *)
Lemma no_spurious_53 K p c P C q r m :
  0 < K → P = p * K → C = c * K → 0 < c < 4503599627370496 →
  P * 9007199254740992 = C * q + r → 0 ≤ r < C →
  m = q ∨ (m = q + 1 ∧ 0 < r ∧ C ≤ 2 * r) →
  (6755399441055744 ≤ m ↔ 3 * c ≤ 4 * p).
Proof.
  intros HK HP HC Hc Hdm Hr Hm.
  assert (HCpos : 0 < C) by nia.
  pose proof (quotient_ge C q r 6755399441055744 _ HCpos Hr Hdm) as Hq.
  assert (Hratio : 6755399441055744 * C ≤ P * 9007199254740992
                   ↔ 3 * c ≤ 4 * p).
  { rewrite HP, HC.
    replace (6755399441055744 * (c * K))
      with ((3 * c * 2251799813685248) * K) by ring.
    replace (p * K * 9007199254740992)
      with ((4 * p * 2251799813685248) * K) by ring.
    rewrite (scale_le K) by done. lia. }
  rewrite <- Hratio, <- Hq. destruct Hm as [-> | (-> & Hr0 & Hhalf)]; [done|].
  split; [|lia]. intros Hle.
  destruct (Z.le_gt_cases 6755399441055744 q) as [|Hlt]; [done|].
  assert (q = 6755399441055743) as -> by lia. exfalso.
  assert (Hno : ¬ 3 * c ≤ 4 * p) by (rewrite <- Hratio, <- Hq; lia).
  assert (Hk : (13510798882111487 * c) * K ≤ (18014398509481984 * p) * K).
  { rewrite HP, HC in *. lia. }
  apply (proj1 (scale_le K _ _ HK)) in Hk. lia.
Qed.

Lemma no_spurious_54 K p c P C q r m :
  0 < K → P = 2 * p * K → C = c * K → 0 < c < 4503599627370496 →
  P * 9007199254740992 = C * q + r → 0 ≤ r < C → 0 ≤ q →
  m = q / 2 ∨ (m = q / 2 + 1 ∧ Z.odd q = true) →
  (6755399441055744 ≤ m ↔ 3 * c ≤ 4 * p).
Proof.
  intros HK HP HC Hc Hdm Hr Hq0 Hm.
  assert (HCpos : 0 < C) by nia.
  pose proof (quotient_ge C q r 13510798882111488 _ HCpos Hr Hdm) as Hq.
  assert (Hratio : 13510798882111488 * C ≤ P * 9007199254740992
                   ↔ 3 * c ≤ 4 * p).
  { rewrite HP, HC.
    replace (13510798882111488 * (c * K))
      with ((3 * c * 4503599627370496) * K) by ring.
    replace (2 * p * K * 9007199254740992)
      with ((4 * p * 4503599627370496) * K) by ring.
    rewrite (scale_le K) by done. lia. }
  pose proof (Z.div_mod q 2 ltac:(lia)) as Hq2.
  pose proof (Z.mod_pos_bound q 2 ltac:(lia)) as Hb.
  rewrite <- Hratio, <- Hq.
  destruct Hm as [-> | (-> & Hodd)]; [lia|].
  rewrite Zmod_odd, Hodd in Hq2.
  split; [|lia]. intros Hle.
  destruct (Z.le_gt_cases 13510798882111488 q) as [|Hlt]; [done|].
  assert (q = 13510798882111487) as Hq' by lia. exfalso.
  assert (Hno : ¬ 3 * c ≤ 4 * p) by (rewrite <- Hratio, <- Hq; lia).
  assert (Hk : (13510798882111487 * c) * K ≤ (18014398509481984 * p) * K).
  { rewrite HP, HC, Hq' in *. lia. }
  apply (proj1 (scale_le K _ _ HK)) in Hk. lia.
Qed.

Lemma scale_lt K a b : 0 < K → (a * K < b * K ↔ a < b).
Proof. intros HK. split; intros H; nia. Qed.

Lemma geb_div_pos p c :
  0 < p < 2 ^ 53 → 0 < c < 2 ^ 52 →
  JsNumber.geb (JsNumber.div (JsNumber.of_Z p) (JsNumber.of_Z c)) JsNumber.threshold = (3 * c <=? 4 * p).
Proof.
  intros Hp Hc.
  destruct (of_Z_exact p Hp) as (m1 & k1 & -> & Hk1 & HP & HPr).
  destruct (of_Z_exact c) as (m2 & k2 & -> & Hk2 & HC & HCr).
  { rewrite pow2_52, pow2_53 in *. lia. }
  rewrite div_canonical by (done || lia).
  pose proof (Z.div_mod (Z.pos m1 * 2 ^ 53) (Z.pos m2)) as Hdm.
  pose proof (Z.mod_pos_bound (Z.pos m1 * 2 ^ 53) (Z.pos m2)) as Hr.
  pose proof (new_location_up (Z.pos m2)
                ((Z.pos m1 * 2 ^ 53) mod Z.pos m2)) as Hup.
  pose proof (exponent_cases k1 k2) as HE.
  pose proof (Z.pow_pos_nonneg 2 k1) as HK1.
  pose proof (Z.pow_pos_nonneg 2 k2) as HK2.
  revert Hdm Hr Hup.
  generalize ((Z.pos m1 * 2 ^ 53) mod Z.pos m2).
  generalize (Z.pos m1 * 2 ^ 53 / Z.pos m2).
  intros q r Hdm Hr Hup.
  revert HP HC HPr HCr Hdm Hr Hup. generalize (Z.pos m1), (Z.pos m2).
  intros P C HP HC HPr HCr Hdm Hr Hup.
  specialize (Hdm ltac:(lia)). specialize (Hr ltac:(lia)).
  specialize (Hup ltac:(lia) Hr). specialize (HE ltac:(lia) ltac:(lia)).
  specialize (HK1 ltac:(lia) ltac:(lia)). specialize (HK2 ltac:(lia) ltac:(lia)).
  rewrite pow2_52, pow2_53 in *.
  destruct (quotient_bounds P C q r HPr HCr Hdm Hr) as [Hq HqPC].
  revert HP HC HE HK1 HK2. generalize (2 ^ k1), (2 ^ k2).
  intros K1 K2 HP HC HE HK1 HK2.
  destruct (Z.lt_ge_cases q 9007199254740992) as [Hq53|Hq54].
  - assert (HPC : P < C) by (by apply HqPC).
    destruct (round_aux_53 q (- k1 - - k2 - 53) (new_location C r))
      as (m & -> & Hm); [rewrite pow2_52, pow2_53; lia | lia |].
    assert (Hm' : m = q ∨ (m = q + 1 ∧ 0 < r ∧ C ≤ 2 * r)).
    { destruct Hm as [|[? Hl]]; [by left|]. right. split; [done|]. by apply Hup. }
    clear Hm Hup.
    rewrite geb_rounded by (rewrite pow2_52, pow2_53; lia). rewrite pow2_53.
    destruct HE as [[HE HK]|[[-> HK]|[[-> HK]|[HE HK]]]].
    + pose proof (ratio_high K1 K2 p c HK1 HK ltac:(lia) ltac:(lia)
                    ltac:(lia) ltac:(lia)).
      bool_cases; lia.
    + rewrite <- HK in HC.
      pose proof (no_spurious_53 K1 p c P C q r m HK1 HP HC Hc Hdm Hr Hm').
      bool_cases; lia.
    + assert (Hlt : (2 * p) * K2 < c * K2) by (rewrite HP, HC, HK in HPC; lia).
      apply (proj1 (scale_lt K2 _ _ HK2)) in Hlt.
      bool_cases; lia.
    + pose proof (ratio_low K1 K2 p c HK2 HK ltac:(lia) ltac:(lia)
                    ltac:(lia) ltac:(lia)).
      bool_cases; lia.
  - assert (HPC : C ≤ P) by (destruct (Z.lt_ge_cases P C); [|done]; apply HqPC in H; lia).
    destruct (round_aux_54 q (- k1 - - k2 - 53) (new_location C r))
      as (m & -> & Hm); [rewrite pow2_53, pow2_54; lia | lia |].
    clear Hup.
    assert (Hm2 : 4503599627370496 ≤ m ≤ 9007199254740992).
    { pose proof (Z.div_mod q 2 ltac:(lia)).
      pose proof (Z.mod_pos_bound q 2 ltac:(lia)).
      destruct Hm as [-> | [-> _]]; lia. }
    rewrite geb_rounded by (rewrite pow2_52, pow2_53; lia). rewrite pow2_53.
    destruct HE as [[HE HK]|[[-> HK]|[[-> HK]|[HE HK]]]].
    + pose proof (ratio_high K1 K2 p c HK1 HK ltac:(lia) ltac:(lia)
                    ltac:(lia) ltac:(lia)).
      bool_cases; lia.
    + assert (Hle : c * K1 ≤ p * K1) by (subst; lia).
      assert (c ≤ p) by nia.
      bool_cases; lia.
    + pose proof (no_spurious_54 K2 p c P C q r m HK2
                    ltac:(rewrite HP, HK; ring) HC Hc Hdm Hr ltac:(lia) Hm).
      bool_cases; lia.
    + pose proof (ratio_low K1 K2 p c HK2 HK ltac:(lia) ltac:(lia)
                    ltac:(lia) ltac:(lia)).
      bool_cases; lia.
Qed.

Lemma geb_div_nonneg p c :
  0 ≤ p < 2 ^ 53 → 0 < c < 2 ^ 52 →
  JsNumber.geb (JsNumber.div (JsNumber.of_Z p) (JsNumber.of_Z c))
               JsNumber.threshold
  = (3 * c <=? 4 * p).
Proof.
  intros Hp Hc. destruct (Z.eq_dec p 0) as [->|Hne].
  - destruct (of_Z_exact c) as (m2 & k2 & -> & _);
      [rewrite pow2_52, pow2_53 in *; lia|].
    rewrite pow2_52 in Hc. by destruct (Z.leb_spec (3 * c) (4 * 0)); [lia|].
  - apply geb_div_pos; [lia | done].
Qed.

End ThresholdFacts.

(** ** The status without floating point *)

Section StatusFacts.

Lemma rows_sum_bounds rows :
  0 ≤ rows_sum Subject.present rows ≤ rows_sum Subject.classesHeld rows.
Proof.
  unfold rows_sum. induction rows as [|e rows IH]; [simpl; lia|].
  rewrite !fmap_cons. cbn [foldr compose].
  pose proof (record_of_bounds e). lia.
Qed.

Lemma finish_status st :
  0 ≤ Totals.present (Student.totals st)
    ≤ Totals.classesHeld (Student.totals st) →
  Totals.classesHeld (Student.totals st) < 2 ^ 52 →
  Totals.status (Student.totals (finish st))
  = Some (if decide (0 < Totals.classesHeld (Student.totals st)
                     ∧ 3 * Totals.classesHeld (Student.totals st)
                       ≤ 4 * Totals.present (Student.totals st))
          then GOOD else NEEDS_IMPROVEMENT).
Proof.
  intros Hle Hlt. unfold finish. cbn [Student.totals Totals.status].
  f_equal. destruct (Z.ltb_spec 0 (Totals.classesHeld (Student.totals st)))
    as [Hpos|Hzero].
  - rewrite geb_div_nonneg by (rewrite ?pow2_52, ?pow2_53 in *; lia).
    destruct (Z.leb_spec (3 * Totals.classesHeld (Student.totals st))
                         (4 * Totals.present (Student.totals st))).
    + by rewrite decide_True.
    + rewrite decide_False; [done | lia].
  - rewrite decide_False by lia. reflexivity.
Qed.

End StatusFacts.

(** X25: the comparison of the floating-point quotient with 0.75 never
    misjudges a student: for a student of the returned map with fewer
    than 2^52 classes held in total, [totals.status] is Good exactly
    when at least one class was held and
    [3 * classesHeld <= 4 * present] in exact integer arithmetic, and
    Needs Improvement otherwise. *)
Theorem buildStudentsMap_status_exact sheets b (r : jsstring) st :
  buildStudentsMap sheets = Some b →
  Built.map b !! r = Some st →
  Totals.classesHeld (Student.totals st) < 2 ^ 52 →
  Totals.status (Student.totals st)
  = Some (if decide (0 < Totals.classesHeld (Student.totals st)
                     ∧ 3 * Totals.classesHeld (Student.totals st)
                       ≤ 4 * Totals.present (Student.totals st))
          then GOOD else NEEDS_IMPROVEMENT).
Proof.
  intros Hb Hst.
  destruct (buildStudentsMap_student _ _ _ _ Hb Hst) as (_ & st0 & Hst0 & ->).
  intros Hlt. refine (finish_status st0 _ Hlt).
  destruct (rows_of r (entries sheets)) as [|e0 rest]; [done|].
  injection Hst0 as <-. apply rows_sum_bounds.
Qed.

Lemma buildStudentsMap_status_exact_witness :
  ∃ b st, buildStudentsMap three_of_four_sheets = Some b
          ∧ Built.map b !! js "7" = Some st
          ∧ Totals.classesHeld (Student.totals st) = 4
          ∧ Totals.present (Student.totals st) = 3
          ∧ Totals.status (Student.totals st) = Some GOOD.
Proof.
  run_build three_of_four_sheets (js "7") b st Hb Hst.
  exists b, st. split; [done|]. split; [done|].
  assert (Hheld : Totals.classesHeld (Student.totals st) = 4)
    by (vm_compute in Hb; injection Hb as <-; vm_compute in Hst;
        by injection Hst as <-).
  assert (Hpres : Totals.present (Student.totals st) = 3)
    by (vm_compute in Hb; injection Hb as <-; vm_compute in Hst;
        by injection Hst as <-).
  split; [done|]. split; [done|].
  rewrite (buildStudentsMap_status_exact three_of_four_sheets b (js "7") st
             Hb Hst) by (rewrite Hheld; reflexivity).
  rewrite Hheld, Hpres. reflexivity.
Defined.
